(** * An n-body simulator: the integrator, its generator and its driver

    The program (src/main.cpp) keeps an array of planets, fills it from a
    xorshift pseudo-random generator, and advances it [timesteps] times with
    [next], a softened all-pairs gravity step followed by a semi-implicit
    Euler position update.

    The source computes on [double].  The embedding is written once over the
    operations the source applies to doubles ([DoubleOps]) and instantiated
    twice: [binary64], IEEE 754 double precision as the machine computes it
    (Rocq's primitive floats), and [exact], the real numbers, where rounding
    and overflow are absent.  Properties of the control and data flow are
    proved for every instance; properties of magnitudes are proved on the
    instance their statement names. *)

From Stdlib Require Import ZArith List Lia Bool String Ascii.
From Stdlib Require Import Reals Lra.
From Stdlib Require Import Floats.
From stdpp Require Import base list.
Import ListNotations.

Set Warnings "-inexact-float".

(** ** Arithmetic of the source's [double] *)

Class DoubleOps (D : Type) := {
  dadd : D -> D -> D;
  dsub : D -> D -> D;
  dmul : D -> D -> D;
  ddiv : D -> D -> D;
  dsqrt : D -> D;                (* sqrt of <math.h> *)
  of_int : Z -> D;               (* conversion of an integer value *)
  to_single : D -> D             (* rounding to [float], as tdiff returns *)
}.

Declare Scope double_scope.
Delimit Scope double_scope with D.
Infix "+" := dadd : double_scope.
Infix "-" := dsub : double_scope.
Infix "*" := dmul : double_scope.
Infix "/" := ddiv : double_scope.

(** A decimal literal [m]e-[k] of the source, for instance 0.0001 as
    [lit 1 4].  Both [m] and [10^k] are exactly representable for the
    literals of this program, so the quotient is the correctly rounded
    literal in binary64 (checked below, [binary64_literals]) and the exact
    value in the reals. *)
Definition lit `{DoubleOps D} (m : Z) (k : nat) : D :=
  (of_int m / of_int (10 ^ Z.of_nat k))%D.

(** *** IEEE 754 binary64 *)

Module Binary64.

(** Integer to double, for the magnitudes the program converts (below
    2^63). *)
Definition of_Z (z : Z) : float :=
  match z with
  | Z0 => PrimFloat.zero
  | Zpos _ => PrimFloat.of_uint63 (Uint63.of_Z z)
  | Zneg p => PrimFloat.opp (PrimFloat.of_uint63 (Uint63.of_Z (Zpos p)))
  end.

(** Rounding a double to binary32 and reading it back as a double. *)
Definition round_single (f : float) : float :=
  match Prim2SF f with
  | S754_finite s m e => SF2Prim (binary_round 24 128 s m e)
  | _ => f
  end.

(** Classes of specified floats: the zeros, and the numbers that are
    neither a NaN nor an infinity. *)
Definition SF_is_zero (a : spec_float) : bool :=
  match a with S754_zero _ => true | _ => false end.

Definition SF_is_finite (a : spec_float) : bool :=
  match a with S754_zero _ | S754_finite _ _ _ => true | _ => false end.

(** A double that is neither a NaN nor an infinity. *)
Definition finite (f : float) : bool := SF_is_finite (Prim2SF f).

(** The value of the finite double [m * 2^e] in units of the least
    positive double, 2^-1074. *)
Definition ulps (m : positive) (e : Z) : Z := (Z.pos m * 2 ^ (e + 1074))%Z.

End Binary64.

#[global] Instance binary64 : DoubleOps float := {|
  dadd := PrimFloat.add;
  dsub := PrimFloat.sub;
  dmul := PrimFloat.mul;
  ddiv := PrimFloat.div;
  dsqrt := PrimFloat.sqrt;
  of_int := Binary64.of_Z;
  to_single := Binary64.round_single
|}.

(** *** Exact real arithmetic *)

#[global] Instance exact : DoubleOps R := {|
  dadd := Rplus;
  dsub := Rminus;
  dmul := Rmult;
  ddiv := Rdiv;
  dsqrt := R_sqrt.sqrt;
  of_int := IZR;
  to_single := fun r => r
|}.

(** ** The pseudo-random generator

    [seed] is a global [unsigned long long]; every call of [randomU64]
    reads and writes it.  The generator is a state monad over the seed;
    unsigned 64-bit arithmetic wraps modulo 2^64. *)

Definition wrap64 (z : Z) : Z := z mod 2 ^ 64.

Definition Rand (A : Type) : Type := Z -> A * Z.

Definition rret {A} (a : A) : Rand A := fun seed => (a, seed).
Definition rbind {A B} (c : Rand A) (k : A -> Rand B) : Rand B :=
  fun seed => let (a, seed') := c seed in k a seed'.

Declare Scope rand_scope.
Delimit Scope rand_scope with rand.
Notation "'do' x <- c ; k" := (rbind c (fun x => k))
  (at level 10, x name, c at level 100, k at level 200) : rand_scope.

(** unsigned long long randomU64(): three xorshift rounds on [seed]. *)
Definition randomU64 : Rand Z := fun seed =>
  let seed := Z.lxor seed (wrap64 (Z.shiftl seed 21)) in
  let seed := Z.lxor seed (Z.shiftr seed 35) in
  let seed := Z.lxor seed (wrap64 (Z.shiftl seed 4)) in
  (seed, seed).

(** The integer whose quotient by 2^53 randomDouble returns:
    [(next << 27) + next2] in unsigned 64-bit arithmetic. *)
Definition randomBits : Rand Z :=
  (do next <- randomU64;
   let next := Z.shiftr next (64 - 26) in
   do next2 <- randomU64;
   let next2 := Z.shiftr next2 (64 - 26) in
   rret (wrap64 (wrap64 (Z.shiftl next 27) + next2)))%rand.

Section Program.

Context {D : Type} `{DoubleOps D}.
Local Open Scope double_scope.

(** double randomDouble() *)
Definition randomDouble : Rand D :=
  (do bits <- randomBits;
   rret (of_int bits / of_int (Z.shiftl 1 53)))%rand.

(** ** Planets *)

Record Planet := mkPlanet {
  mass : D;
  x : D;
  y : D;
  vx : D;
  vy : D
}.

Definition set_mass (p : Planet) (v : D) := mkPlanet v (x p) (y p) (vx p) (vy p).
Definition set_x (p : Planet) (v : D) := mkPlanet (mass p) v (y p) (vx p) (vy p).
Definition set_y (p : Planet) (v : D) := mkPlanet (mass p) (x p) v (vx p) (vy p).
Definition set_vx (p : Planet) (v : D) := mkPlanet (mass p) (x p) (y p) v (vy p).
Definition set_vy (p : Planet) (v : D) := mkPlanet (mass p) (x p) (y p) (vx p) v.

(** [for (int i = 0; i < n; i++) body], on a state [S]. *)
Definition for_loop {S : Type} (n : Z) (body : nat -> S -> S) (s : S) : S :=
  fold_left (fun s i => body i s) (seq 0 (Z.to_nat n)) s.

(** An assignment [a[i].field = ...] or [a[i].field += ...]: the element
    at [i] is rewritten in place; the rest of the array is untouched. *)
Definition assign (i : nat) (f : Planet -> Planet) (a : list Planet) : list Planet :=
  alter f i a.

(** [malloc(sizeof(Planet) * n)]: an array of [n] planets whose contents
    are whatever the memory held, [junk k] in slot [k]. *)
Definition malloc (n : Z) (junk : nat -> Planet) : list Planet :=
  junk <$> seq 0 (Z.to_nat n).

(** ** The integrator *)

Section Next.

(** The globals [nplanets] and [dt], and the contents of the memory
    that malloc hands out. *)
Variable nplanets : Z.
Variable dt : D.
Variable junk : nat -> Planet.

(** Lines 44-50: the snapshot is copied field by field. *)
Definition copy_body (planets : list Planet) (i : nat)
    (nextplanets : list Planet) : list Planet :=
  match planets !! i with
  | Some p =>
      let nextplanets := assign i (fun q => set_vx q (vx p)) nextplanets in
      let nextplanets := assign i (fun q => set_vy q (vy p)) nextplanets in
      let nextplanets := assign i (fun q => set_mass q (mass p)) nextplanets in
      let nextplanets := assign i (fun q => set_x q (x p)) nextplanets in
      assign i (fun q => set_y q (y p)) nextplanets
  | None => nextplanets
  end.

(** Lines 54-60: one iteration of the inner loop. *)
Definition pair_body (planets : list Planet) (i j : nat)
    (nextplanets : list Planet) : list Planet :=
  match planets !! i, planets !! j with
  | Some pi, Some pj =>
      let dx := x pj - x pi in
      let dy := y pj - y pi in
      let distSqr := dx * dx + dy * dy + lit 1 4 in
      let invDist := mass pi * mass pj / dsqrt distSqr in
      let invDist3 := invDist * invDist * invDist in
      let nextplanets :=
        assign i (fun q => set_vx q (vx q + dt * dx * invDist3)) nextplanets in
      assign i (fun q => set_vy q (vy q + dt * dy * invDist3)) nextplanets
  | _, _ => nextplanets
  end.

(** Lines 62-63: the position of planet [i] moves by its new velocity. *)
Definition move_body (i : nat) (nextplanets : list Planet) : list Planet :=
  let nextplanets := assign i (fun q => set_x q (x q + dt * vx q)) nextplanets in
  assign i (fun q => set_y q (y q + dt * vy q)) nextplanets.

(** Lines 53-63: the body of the outer loop. *)
Definition body_step (planets : list Planet) (i : nat)
    (nextplanets : list Planet) : list Planet :=
  let nextplanets := for_loop nplanets (pair_body planets i) nextplanets in
  move_body i nextplanets.

(** Lines 43-50: the fresh array, filled with the snapshot. *)
Definition copy_planets (planets : list Planet) : list Planet :=
  for_loop nplanets (copy_body planets) (malloc nplanets junk).

(** Planet* next(Planet* planets) *)
Definition next (planets : list Planet) : list Planet :=
  let nextplanets := copy_planets planets in
  for_loop nplanets (body_step planets) nextplanets.

(** *** Variants of the step that the specification compares with [next] *)

(** [next] with its outer loop visiting the planets in the given
    [order] instead of 0, 1, ..., nplanets-1. *)
Definition next_in_order (order : list nat) (planets : list Planet) : list Planet :=
  let nextplanets := copy_planets planets in
  fold_left (fun nextplanets i => body_step planets i nextplanets) order nextplanets.

(** [next] with the self-pair left out: the inner loop skips [j == i]. *)
Definition body_step_no_self (planets : list Planet) (i : nat)
    (nextplanets : list Planet) : list Planet :=
  let nextplanets :=
    for_loop nplanets
      (fun j nextplanets =>
         if Nat.eqb j i then nextplanets else pair_body planets i j nextplanets)
      nextplanets in
  move_body i nextplanets.

Definition next_no_self (planets : list Planet) : list Planet :=
  let nextplanets := copy_planets planets in
  for_loop nplanets (body_step_no_self planets) nextplanets.

(** Modelled from the spec: the symmetric-force variant of the step is
    not part of the sources under study (the specification only names
    it as an optimisation).  Every unordered pair [i < j] is visited
    once; its term is added to the velocity of [i] and subtracted from
    the velocity of [j]; positions move once all velocities are final. *)
Definition symmetric_pair_body (planets : list Planet) (i j : nat)
    (nextplanets : list Planet) : list Planet :=
  match planets !! i, planets !! j with
  | Some pi, Some pj =>
      let dx := x pj - x pi in
      let dy := y pj - y pi in
      let distSqr := dx * dx + dy * dy + lit 1 4 in
      let invDist := mass pi * mass pj / dsqrt distSqr in
      let invDist3 := invDist * invDist * invDist in
      let nextplanets :=
        assign i (fun q => set_vx q (vx q + dt * dx * invDist3)) nextplanets in
      let nextplanets :=
        assign i (fun q => set_vy q (vy q + dt * dy * invDist3)) nextplanets in
      let nextplanets :=
        assign j (fun q => set_vx q (vx q - dt * dx * invDist3)) nextplanets in
      assign j (fun q => set_vy q (vy q - dt * dy * invDist3)) nextplanets
  | _, _ => nextplanets
  end.

Definition next_symmetric (planets : list Planet) : list Planet :=
  let nextplanets := copy_planets planets in
  let nextplanets :=
    for_loop nplanets
      (fun i nextplanets =>
         for_loop nplanets
           (fun j nextplanets =>
              if Nat.ltb i j then symmetric_pair_body planets i j nextplanets
              else nextplanets)
           nextplanets)
      nextplanets in
  for_loop nplanets move_body nextplanets.

End Next.

(** ** The driver *)

(** [for] loop whose body draws random numbers. *)
Fixpoint foldM {S : Type} (body : nat -> S -> Rand S) (idx : list nat) (s : S)
    : Rand S :=
  match idx with
  | [] => rret s
  | i :: idx => (do s <- body i s; foldM body idx s)%rand
  end.

Definition for_loopM {S : Type} (n : Z) (body : nat -> S -> Rand S) (s : S)
    : Rand S :=
  foldM body (seq 0 (Z.to_nat n)) s.

(** [pow] of <math.h> belongs to the C library, which IEEE 754 does not
    pin down bit for bit: the driver takes it as a parameter. *)
Variable dpow : D -> D -> D.

(** Lines 81-85: planet [i] is drawn. *)
Definition init_body (nplanets : Z) (i : nat) (planets : list Planet)
    : Rand (list Planet) :=
  (do r <- randomDouble;
   let planets :=
     assign i (fun q => set_mass q (r * of_int 10 + lit 2 1)) planets in
   do r <- randomDouble;
   let planets :=
     assign i (fun q => set_x q ((r - lit 5 1) * of_int 100
                                 * dpow (of_int (1 + nplanets)) (lit 4 1))) planets in
   do r <- randomDouble;
   let planets :=
     assign i (fun q => set_y q ((r - lit 5 1) * of_int 100
                                 * dpow (of_int (1 + nplanets)) (lit 4 1))) planets in
   do r <- randomDouble;
   let planets := assign i (fun q => set_vx q (r * of_int 5 - lit 25 1)) planets in
   do r <- randomDouble;
   let planets := assign i (fun q => set_vy q (r * of_int 5 - lit 25 1)) planets in
   rret planets)%rand.

(** Lines 79-86: the initial conditions. *)
Definition init_planets (nplanets : Z) (junk : nat -> Planet) : Rand (list Planet) :=
  for_loopM nplanets (init_body nplanets) (malloc nplanets junk).

(** Lines 90-93: [timesteps] steps; [junk t] is the memory the step
    numbered [t] allocates. *)
Definition simulate (nplanets : Z) (dt : D) (junk : nat -> nat -> Planet)
    (timesteps : Z) (planets : list Planet) : list Planet :=
  for_loop timesteps (fun t planets => next nplanets dt (junk t) planets) planets.

(** The generator followed by the integrator loop, from a given seed. *)
Definition run (seed : Z) (nplanets timesteps : Z)
    (junk0 : nat -> Planet) (junk : nat -> nat -> Planet) : list Planet :=
  let dt := lit 1 3 in
  let planets := fst (init_planets nplanets junk0 seed) in
  simulate nplanets dt junk timesteps planets.

Record timeval := mkTimeval { tv_sec : Z; tv_usec : Z }.

(** float tdiff(struct timeval *start, struct timeval *end) *)
Definition tdiff (start end_ : timeval) : D :=
  to_single (of_int (tv_sec end_ - tv_sec start)
             + lit 1 6 * of_int (tv_usec end_ - tv_usec start)).

(** What the process is given besides its arguments: the two readings of
    the clock and the contents of the memory it allocates. *)
Record Env := mkEnv {
  clock_start : timeval;
  clock_end : timeval;
  junk0 : nat -> Planet;
  junk_step : nat -> nat -> Planet
}.

(** A line written to standard output. *)
Inductive output :=
| Usage (prog : string)
    (* "Usage: %s <nplanets> <timesteps>\n" *)
| Report (seconds x_last y_last : D).
    (* "Total time to run simulation %0.6f seconds, final location %f %f\n" *)

(** How a run of the process ends: it returns from main, or it reaches an
    operation whose behaviour C leaves undefined (atoi on a null pointer,
    a read outside the array). *)
Inductive outcome :=
| Exit (status : Z) (stdout : list output)
| Undefined.

(** [planets[k]] for an [int] index. *)
Definition index (planets : list Planet) (k : Z) : option Planet :=
  if (k <? 0)%Z then None else planets !! Z.to_nat k.

End Program.

Arguments Planet D : clear implicits.
Arguments mkPlanet {D} _ _ _ _ _.
Arguments Env D : clear implicits.
Arguments output D : clear implicits.
Arguments outcome D : clear implicits.

(** atoi of <stdlib.h>: optional white space, an optional sign, then the
    longest run of decimal digits. *)
Module Atoi.

Definition is_space (c : ascii) : bool :=
  let n := nat_of_ascii c in
  Nat.eqb n 32 || (Nat.leb 9 n && Nat.leb n 13).

Definition digit (c : ascii) : option Z :=
  let n := nat_of_ascii c in
  if Nat.leb 48 n && Nat.leb n 57 then Some (Z.of_nat (n - 48)) else None.

Fixpoint skip_spaces (s : string) : string :=
  match s with
  | String c s' => if is_space c then skip_spaces s' else s
  | EmptyString => s
  end.

Fixpoint digits (s : string) (acc : Z) : Z :=
  match s with
  | String c s' =>
      match digit c with
      | Some d => digits s' (10 * acc + d)
      | None => acc
      end
  | EmptyString => acc
  end.

Definition atoi (s : string) : Z :=
  match skip_spaces s with
  | String "-" s' => - digits s' 0
  | String "+" s' => digits s' 0
  | s' => digits s' 0
  end.

End Atoi.

Section Main.

Context {D : Type} `{DoubleOps D}.

(** int main(int argc, const char** argv), started with [seed] holding
    [seed0]; [argv !! k] is [None] where [argv[k]] is the null pointer
    that ends the argument vector. *)
Definition main_from (dpow : D -> D -> D) (seed0 : Z) (env : Env D)
    (argv : list string) : outcome D :=
  let argc := Z.of_nat (length argv) in
  if (argc <? 2)%Z then
    match argv !! 0%nat with
    | Some prog => Exit 1 [Usage prog]
    | None => Undefined
    end
  else
    match argv !! 1%nat, argv !! 2%nat with
    | Some arg1, Some arg2 =>
        let nplanets := Atoi.atoi arg1 in
        let timesteps := Atoi.atoi arg2 in
        let planets :=
          run dpow seed0 nplanets timesteps (junk0 env) (junk_step env) in
        match index planets (nplanets - 1) with
        | Some last =>
            Exit 0 [Report (tdiff (clock_start env) (clock_end env)) (x last) (y last)]
        | None => Undefined
        end
    | _, _ => Undefined
    end.

(** An outcome with the measured time blanked: what a run prints apart
    from the reading of the clock. *)
Definition without_seconds (o : outcome D) : outcome D :=
  match o with
  | Exit status stdout =>
      Exit status
        (map (fun line =>
                match line with
                | Report _ x_last y_last => Report (of_int 0) x_last y_last
                | Usage prog => Usage prog
                end) stdout)
  | Undefined => Undefined
  end.

(** The program: [seed] is initialised to 100. *)
Definition main (dpow : D -> D -> D) : Env D -> list string -> outcome D :=
  main_from dpow 100.

End Main.

(** ** The step, slot by slot

    What the loops of [next] do to one slot of the new array, as functions
    on planets.  The lemmas below relate them to the loops. *)

Section Slots.

Context {D : Type} `{DoubleOps D}.
Local Open Scope double_scope.

Variable nplanets : Z.
Variable dt : D.

(** Lines 54-58: the factor [invDist3] of the ordered pair [(pi, pj)]. *)
Definition invDist3 (pi pj : Planet D) : D :=
  let dx := x pj - x pi in
  let dy := y pj - y pi in
  let distSqr := dx * dx + dy * dy + lit 1 4 in
  let invDist := mass pi * mass pj / dsqrt distSqr in
  invDist * invDist * invDist.

(** Lines 59-60 on the slot [q] of planet [pi], for the partner [pj]. *)
Definition kick (pi pj q : Planet D) : Planet D :=
  let q := set_vx q (vx q + dt * (x pj - x pi) * invDist3 pi pj) in
  set_vy q (vy q + dt * (y pj - y pi) * invDist3 pi pj).

(** Lines 62-63 on the slot [q]. *)
Definition move (q : Planet D) : Planet D :=
  let q := set_x q (x q + dt * vx q) in
  set_y q (y q + dt * vy q).

(** Lines 45-49 on the slot [q], for the snapshot entry [p]. *)
Definition copy_fields (p q : Planet D) : Planet D :=
  let q := set_vx q (vx p) in
  let q := set_vy q (vy p) in
  let q := set_mass q (mass p) in
  let q := set_x q (x p) in
  set_y q (y p).

(** One inner iteration on slot [i], with the reads of the snapshot. *)
Definition slot_kick (planets : list (Planet D)) (i j : nat) (q : Planet D)
    : Planet D :=
  match planets !! i, planets !! j with
  | Some pi, Some pj => kick pi pj q
  | _, _ => q
  end.

(** One outer iteration on slot [i]. *)
Definition slot_step (planets : list (Planet D)) (i : nat) (q : Planet D)
    : Planet D :=
  move (fold_left (fun q j => slot_kick planets i j q) (seq 0 (Z.to_nat nplanets)) q).

(** The planet that one step makes of [pi], given the snapshot. *)
Definition next_planet (planets : list (Planet D)) (pi : Planet D) : Planet D :=
  move (fold_left (fun q pj => kick pi pj q) planets pi).

End Slots.

(** ** The generator, planet by planet

    What the initialisation loop of [main] produces, as a function of the
    random draws.  The lemmas below relate it to the loop. *)

Section Generator.

Context {D : Type} `{DoubleOps D}.
Local Open Scope double_scope.

Variable dpow : D -> D -> D.
Variable nplanets : Z.

(** Lines 81-85 for the five draws of one planet. *)
Definition planet_of_draws (r_mass r_x r_y r_vx r_vy : D) : Planet D :=
  mkPlanet
    (r_mass * of_int 10 + lit 2 1)
    ((r_x - lit 5 1) * of_int 100 * dpow (of_int (1 + nplanets)) (lit 4 1))
    ((r_y - lit 5 1) * of_int 100 * dpow (of_int (1 + nplanets)) (lit 4 1))
    (r_vx * of_int 5 - lit 25 1)
    (r_vy * of_int 5 - lit 25 1).

Definition draw_planet : Rand (Planet D) :=
  (do r_mass <- randomDouble;
   do r_x <- randomDouble;
   do r_y <- randomDouble;
   do r_vx <- randomDouble;
   do r_vy <- randomDouble;
   rret (planet_of_draws r_mass r_x r_y r_vx r_vy))%rand.

Fixpoint draw_planets (k : nat) : Rand (list (Planet D)) :=
  match k with
  | O => rret []
  | S k => (do p <- draw_planet; do ps <- draw_planets k; rret (p :: ps))%rand
  end.

End Generator.

(** A value of the 64-bit [seed]. *)
Definition u64 (z : Z) : Prop := (0 <= z < 2 ^ 64)%Z.

(** ** Exact arithmetic: ranges and sums *)


(** ** Binary64: what holds of a generated planet whatever [pow] returns *)

(** A mass that is a finite double above zero, and velocity components
    that are finite doubles. *)
Definition sound_draw (p : Planet float) : Prop :=
  PrimFloat.ltb 0 (mass p) = true
  /\ Binary64.finite (mass p) = true
  /\ Binary64.finite (vx p) = true
  /\ Binary64.finite (vy p) = true.


(** ** Sample states *)

Module Sample.

(** The end-to-end scenario of the specification: two bodies of mass 1
    at (-1,0) and (1,0), at rest. *)
Definition left_body : Planet float :=
  mkPlanet 1%float (-1)%float 0%float 0%float 0%float.
Definition right_body : Planet float :=
  mkPlanet 1%float 1%float 0%float 0%float 0%float.
Definition two_bodies : list (Planet float) := [left_body; right_body].

(** A body at rest at the origin whose mass is the finite double 2^342
    (about 9e102). *)
Definition heavy_body : Planet float :=
  mkPlanet 0x1p+342%float 0%float 0%float 0%float 0%float.

(** Memory full of NaNs. *)
Definition nan_junk : nat -> Planet float :=
  fun _ => mkPlanet nan nan nan nan nan.

(** The time step of the program, 0.001. *)
Definition dt : float := lit 1 3.

(** Memory full of zeros. *)
Definition zero_junk : nat -> Planet float :=
  fun _ => mkPlanet 0%float 0%float 0%float 0%float 0%float.

(** The two bodies again, the right one now moving. *)
Definition two_bodies_moving : list (Planet float) :=
  [left_body; mkPlanet 1%float 1%float 0%float 3%float (-2)%float].


(** A process environment: two readings of the clock, NaNs in memory. *)
Definition env : Env float :=
  mkEnv (mkTimeval 10 999999) (mkTimeval 12 5) nan_junk (fun _ => nan_junk).

End Sample.

(** The generator and the loops built on it are unfolded on demand only. *)
Arguments randomU64 _ : simpl never.
Arguments randomBits _ : simpl never.
Arguments randomDouble {D _} _ : simpl never.
Arguments draw_planet {D _} _ _ _ : simpl never.
Arguments init_body {D _} _ _ _ _ _ : simpl never.
Arguments init_planets {D _} _ _ _ _ : simpl never.
Arguments next {D _} _ _ _ _ : simpl never.
Arguments simulate {D _} _ _ _ _ _ : simpl never.
Arguments run {D _} _ _ _ _ _ _ : simpl never.

(** * Properties *)

(** ** Loops over arrays *)

Section Loops.

Context {A : Type}.

Lemma fold_left_ext {B} (f g : A -> B -> A) (l : list B) (a : A) :
  (forall a b, f a b = g a b) -> fold_left f l a = fold_left g l a.
Proof.
  intros Hfg. revert a. induction l as [|b l IH]; intros a; simpl; [reflexivity|].
  now rewrite Hfg, IH.
Qed.

(** Successive updates of one slot are one update of that slot. *)
Lemma fold_alter_same {B} (f : B -> A -> A) (i : nat) (js : list B) (l : list A) :
  fold_left (fun l j => alter (f j) i l) js l
  = alter (fun a => fold_left (fun a j => f j a) js a) i l.
Proof.
  revert l. induction js as [|j js IH]; intros l; simpl.
  - symmetry. now apply list_alter_id.
  - rewrite IH, list_alter_alter_eq. reflexivity.
Qed.

(** A loop whose iteration [i] only rewrites slot [i], visiting each
    index at most once: slot [k] holds its own update, whatever the
    order of the visits. *)
Lemma fold_alter_lookup (F : nat -> A -> A) (order : list nat) (l : list A) (k : nat) :
  NoDup order ->
  fold_left (fun l i => alter (F i) i l) order l !! k
  = if decide (k ∈ order) then F k <$> l !! k else l !! k.
Proof.
  intros Hnd. revert l.
  induction order as [|i order IH]; intros l; simpl.
  - destruct (decide (k ∈ [])) as [Hin|_]; [inversion Hin | reflexivity].
  - apply NoDup_cons in Hnd as [Hi Hnd].
    rewrite (IH Hnd). destruct (decide (k = i)) as [->|Hne].
    + rewrite decide_False by assumption.
      rewrite decide_True by (left).
      apply list_lookup_alter_eq.
    + rewrite (list_lookup_alter_ne _ _ i k) by congruence.
      destruct (decide (k ∈ order)) as [Hin|Hnin].
      * rewrite decide_True by (now right). reflexivity.
      * rewrite decide_False; [reflexivity|].
        intros Hin. apply elem_of_cons in Hin as [?|?]; contradiction.
Qed.

(** Reading an array at 0, 1, ..., length-1 is traversing it. *)
Lemma fold_seq_lookup_from {S} (f : S -> option A -> S) (pre l : list A) (s : S) :
  fold_left (fun s j => f s ((pre ++ l) !! j)) (seq (length pre) (length l)) s
  = fold_left (fun s a => f s (Some a)) l s.
Proof.
  revert pre s. induction l as [|a l IH]; intros pre s; simpl; [reflexivity|].
  rewrite list_lookup_middle by reflexivity.
  specialize (IH (pre ++ [a]) (f s (Some a))).
  rewrite length_app, Nat.add_1_r, <- app_assoc in IH. exact IH.
Qed.

Lemma fold_seq_lookup {S} (f : S -> option A -> S) (l : list A) (s : S) :
  fold_left (fun s j => f s (l !! j)) (seq 0 (length l)) s
  = fold_left (fun s a => f s (Some a)) l s.
Proof. exact (fold_seq_lookup_from f [] l s). Qed.

End Loops.

(** ** The step, loop by loop *)

Section NextLemmas.

Context {D : Type} `{DoubleOps D}.
Local Open Scope double_scope.

Variable nplanets : Z.
Variable dt : D.
Variable junk : nat -> Planet D.

Implicit Types (planets np : list (Planet D)) (p q pi pj : Planet D).

Local Abbreviation n := (Z.to_nat nplanets).

Lemma copy_fields_eq (p q : Planet D) : copy_fields p q = p.
Proof. destruct p; reflexivity. Qed.

Lemma copy_body_alter planets i np :
  copy_body planets i np
  = alter (fun q => match planets !! i with Some p => p | None => q end) i np.
Proof.
  unfold copy_body, assign. destruct (planets !! i) as [p|].
  - rewrite !list_alter_alter_eq. apply list_alter_ext; [|reflexivity].
    intros q _. apply (copy_fields_eq p q).
  - symmetry. now apply list_alter_id.
Qed.

Lemma length_malloc (m : Z) : length (malloc m junk) = Z.to_nat m.
Proof. unfold malloc. now rewrite length_fmap, length_seq. Qed.

Lemma lookup_malloc (m : Z) k :
  (k < Z.to_nat m)%nat -> malloc m junk !! k = Some (junk k).
Proof.
  intros Hk. unfold malloc. rewrite list_lookup_fmap, lookup_seq_lt by assumption.
  reflexivity.
Qed.

(** The copy loop leaves the snapshot in the new array, whatever the
    memory held before. *)
Lemma copy_planets_eq planets :
  length planets = n -> copy_planets nplanets junk planets = planets.
Proof.
  intros Hlen. apply list_eq. intros k.
  unfold copy_planets, for_loop.
  rewrite (fold_left_ext _ (fun l i => alter
             (fun q => match planets !! i with Some p => p | None => q end) i l))
    by (intros; apply copy_body_alter).
  rewrite (fold_alter_lookup
             (fun i q => match planets !! i with Some p => p | None => q end))
    by apply NoDup_seq.
  destruct (decide (k ∈ seq 0 n)) as [Hin|Hnin].
  - apply elem_of_seq in Hin. rewrite lookup_malloc by lia.
    destruct (planets !! k) as [p|] eqn:Hk; [reflexivity|].
    apply lookup_ge_None in Hk. lia.
  - rewrite elem_of_seq in Hnin.
    rewrite (lookup_ge_None_2 planets) by lia.
    apply lookup_ge_None_2. rewrite length_malloc. lia.
Qed.

Lemma pair_body_alter planets i j np :
  pair_body dt planets i j np = alter (slot_kick dt planets i j) i np.
Proof.
  unfold pair_body, slot_kick, assign.
  destruct (planets !! i) as [pi|]; [destruct (planets !! j) as [pj|]|].
  - rewrite list_alter_alter_eq. reflexivity.
  - symmetry. now apply list_alter_id.
  - symmetry. now apply list_alter_id.
Qed.

Lemma move_body_alter i np : move_body dt i np = alter (move dt) i np.
Proof. unfold move_body, assign. now rewrite list_alter_alter_eq. Qed.

(** An outer iteration rewrites its own slot and nothing else. *)
Lemma body_step_alter planets i np :
  body_step nplanets dt planets i np = alter (slot_step nplanets dt planets i) i np.
Proof.
  unfold body_step, for_loop.
  rewrite (fold_left_ext _ (fun l j => alter (slot_kick dt planets i j) i l))
    by (intros; apply pair_body_alter).
  rewrite fold_alter_same, move_body_alter, list_alter_alter_eq.
  reflexivity.
Qed.

(** With the snapshot as long as [nplanets], the inner loop traverses it. *)
Lemma slot_step_next_planet planets i pi q :
  length planets = n -> planets !! i = Some pi ->
  slot_step nplanets dt planets i q
  = move dt (fold_left (fun q pj => kick dt pi pj q) planets q).
Proof.
  intros Hlen Hi. unfold slot_step, slot_kick. rewrite Hi, <- Hlen. f_equal.
  exact (fold_seq_lookup
           (fun q o => match o with Some pj => kick dt pi pj q | None => q end)
           planets q).
Qed.

Lemma next_in_order_lookup order planets k :
  NoDup order ->
  next_in_order nplanets dt junk order planets !! k
  = if decide (k ∈ order)
    then slot_step nplanets dt planets k <$> copy_planets nplanets junk planets !! k
    else copy_planets nplanets junk planets !! k.
Proof.
  intros Hnd. unfold next_in_order.
  rewrite (fold_left_ext _ (fun l i => alter (slot_step nplanets dt planets i) i l))
    by (intros; apply body_step_alter).
  now apply fold_alter_lookup.
Qed.

Lemma next_as_in_order planets :
  next nplanets dt junk planets = next_in_order nplanets dt junk (seq 0 n) planets.
Proof. reflexivity. Qed.

(** Each planet of the new array is [next_planet] of the old one. *)
Lemma next_lookup planets i pi :
  length planets = n -> planets !! i = Some pi ->
  next nplanets dt junk planets !! i = Some (next_planet dt planets pi).
Proof.
  intros Hlen Hi. rewrite next_as_in_order, next_in_order_lookup by apply NoDup_seq.
  assert (i < n)%nat by (rewrite <- Hlen; eapply lookup_lt_Some; eassumption).
  rewrite decide_True by (apply elem_of_seq; lia).
  rewrite copy_planets_eq, Hi by assumption. simpl.
  now rewrite (slot_step_next_planet planets i pi).
Qed.

Lemma length_next planets :
  length (next nplanets dt junk planets) = n.
Proof.
  unfold next, for_loop.
  assert (Hgen : forall idx l,
    length (fold_left (fun s i => body_step nplanets dt planets i s) idx l) = length l).
  { induction idx as [|i idx IH]; intros l; simpl; [reflexivity|].
    rewrite IH, body_step_alter. apply length_alter. }
  rewrite Hgen. unfold copy_planets, for_loop.
  assert (Hcp : forall idx l,
    length (fold_left (fun s i => copy_body planets i s) idx l) = length l).
  { induction idx as [|i idx IH]; intros l; simpl; [reflexivity|].
    rewrite IH, copy_body_alter. apply length_alter. }
  rewrite Hcp. apply length_malloc.
Qed.

(** The velocity and position fields of [next_planet], each as its own
    accumulation. *)
Lemma fold_kick_fields pi planets q :
  fold_left (fun q pj => kick dt pi pj q) planets q
  = mkPlanet (mass q) (x q) (y q)
      (fold_left (fun v pj => v + dt * (x pj - x pi) * invDist3 pi pj) planets (vx q))
      (fold_left (fun v pj => v + dt * (y pj - y pi) * invDist3 pi pj) planets (vy q)).
Proof.
  revert q. induction planets as [|pj planets IH]; intros q; simpl.
  - destruct q; reflexivity.
  - rewrite IH. reflexivity.
Qed.

End NextLemmas.

(** ** The integrator: semi-implicit Euler on a snapshot *)

Section Integrator.

Context {D : Type} `{DoubleOps D}.
Local Open Scope double_scope.

Implicit Types (planets np : list (Planet D)) (p q pi pj : Planet D).

(** C1.  One call of the step gives planet [i] its old velocity plus the
    terms [dt * dx * invDist3] of all [j], accumulated in the order of the
    inner loop, with [dx = x_j - x_i], [distSq = dx^2 + dy^2 + 1e-4],
    [invDist = mass_i * mass_j / sqrt distSq] and [invDist3 = invDist^3]
    (likewise for [y]); its new position is the old one plus [dt] times
    that new velocity; its mass is unchanged. *)
Theorem next_semi_implicit_euler
    (nplanets : Z) (dt : D) (junk : nat -> Planet D) planets (i : nat) pi :
  length planets = Z.to_nat nplanets ->
  planets !! i = Some pi ->
  let term (coord : Planet D -> D) (pj : Planet D) : D :=
    let dx := x pj - x pi in
    let dy := y pj - y pi in
    let distSq := dx * dx + dy * dy + lit 1 4 in
    let invDist := mass pi * mass pj / dsqrt distSq in
    let invDist3 := invDist * invDist * invDist in
    dt * (coord pj - coord pi) * invDist3 in
  let vx' := fold_left (fun v pj => v + term x pj) planets (vx pi) in
  let vy' := fold_left (fun v pj => v + term y pj) planets (vy pi) in
  next nplanets dt junk planets !! i
  = Some (mkPlanet (mass pi) (x pi + dt * vx') (y pi + dt * vy') vx' vy').
Proof.
  intros Hlen Hi term vx' vy'.
  rewrite (next_lookup nplanets dt junk planets i pi Hlen Hi).
  unfold next_planet. rewrite fold_kick_fields. reflexivity.
Qed.

(** C2.  An outer iteration reads the snapshot and its own slot and
    writes its own slot only, so no output planet depends on another
    partially updated one; hence visiting the planets in any order that
    is a permutation of 0, ..., nplanets-1 gives the state that [next]
    gives. *)
Theorem next_snapshot_isolation
    (nplanets : Z) (dt : D) (junk : nat -> Planet D) planets :
  (forall i np np', np !! i = np' !! i ->
     body_step nplanets dt planets i np !! i
     = body_step nplanets dt planets i np' !! i)
  /\ (forall i k np, k <> i -> body_step nplanets dt planets i np !! k = np !! k)
  /\ (forall order, Permutation order (seq 0 (Z.to_nat nplanets)) ->
        next_in_order nplanets dt junk order planets
        = next nplanets dt junk planets).
Proof.
  split; [|split].
  - intros i np np' Heq. rewrite !body_step_alter, !list_lookup_alter_eq.
    now rewrite Heq.
  - intros i k np Hne. rewrite body_step_alter.
    apply list_lookup_alter_ne. congruence.
  - intros order Hperm. apply list_eq. intros k.
    assert (Hnd : NoDup order).
    { rewrite Hperm. apply NoDup_seq. }
    rewrite next_as_in_order, !next_in_order_lookup by (assumption || apply NoDup_seq).
    destruct (decide (k ∈ order)) as [Hin|Hnin].
    + rewrite decide_True by (now rewrite <- Hperm). reflexivity.
    + rewrite decide_False by (now rewrite <- Hperm). reflexivity.
Qed.

End Integrator.

Lemma next_semi_implicit_euler_witness :
  length Sample.two_bodies = Z.to_nat 2
  /\ Sample.two_bodies !! 0%nat = Some Sample.left_body
  /\ next 2 Sample.dt Sample.nan_junk Sample.two_bodies !! 0%nat
     = Some (mkPlanet 1%float (-0x1.fffff79c98cd2p-1)%float 0%float
               0x1.062258f5837e3p-12%float 0%float).
Proof.
  split; [reflexivity|]. split; [reflexivity|].
  rewrite (next_semi_implicit_euler 2 Sample.dt Sample.nan_junk
             Sample.two_bodies 0 Sample.left_body) by reflexivity.
  vm_compute. reflexivity.
Defined.


(** ** The generator *)

Section SeedLemmas.

Local Open Scope Z_scope.

Lemma lxor_u64 a b : u64 a -> u64 b -> u64 (Z.lxor a b).
Proof.
  unfold u64. intros [Ha Ha'] [Hb Hb']. split.
  - apply Z.lxor_nonneg. tauto.
  - destruct (Z.eq_dec (Z.lxor a b) 0) as [->|Hne]; [reflexivity|].
    assert (0 < Z.lxor a b) by (pose proof (proj2 (Z.lxor_nonneg a b)); lia).
    apply Z.log2_lt_pow2; [assumption|].
    pose proof (Z.log2_lxor a b Ha Hb) as Hl.
    assert (Z.log2 a < 64).
    { destruct (Z.eq_dec a 0) as [->|]; [reflexivity|]. apply Z.log2_lt_pow2; lia. }
    assert (Z.log2 b < 64).
    { destruct (Z.eq_dec b 0) as [->|]; [reflexivity|]. apply Z.log2_lt_pow2; lia. }
    lia.
Qed.

Lemma wrap64_u64 z : u64 (wrap64 z).
Proof. unfold u64, wrap64. apply Z.mod_pos_bound. reflexivity. Qed.

Lemma shiftr_u64 z k : 0 <= k -> u64 z -> u64 (Z.shiftr z k).
Proof.
  unfold u64. intros Hk [Hz Hz']. rewrite Z.shiftr_div_pow2 by assumption.
  assert (0 < 2 ^ k) by (apply Z.pow_pos_nonneg; lia).
  split; [apply Z.div_pos; lia|].
  apply Z.le_lt_trans with z; [|assumption].
  apply Z.div_le_upper_bound; [assumption|]. nia.
Qed.

(** The seed stays a 64-bit value, and randomU64 returns it. *)
Lemma randomU64_u64 seed :
  u64 seed -> u64 (fst (randomU64 seed)) /\ snd (randomU64 seed) = fst (randomU64 seed).
Proof.
  intros Hs. unfold randomU64. simpl. split; [|reflexivity].
  repeat first [apply lxor_u64 | apply wrap64_u64 | apply shiftr_u64; [lia|] | assumption].
Qed.

Lemma top26 z : u64 z -> 0 <= Z.shiftr z (64 - 26) < 2 ^ 26.
Proof.
  unfold u64. intros [Hz Hz']. rewrite Z.shiftr_div_pow2 by lia.
  change (64 - 26) with 38. split.
  - apply Z.div_pos; [assumption|reflexivity].
  - apply Z.div_lt_upper_bound; [reflexivity|].
    change (2 ^ 38 * 2 ^ 26) with (2 ^ 64). assumption.
Qed.

(** The integer that randomDouble divides is below 2^53, and no unsigned
    operation wraps on the way. *)
Lemma randomBits_range seed :
  u64 seed ->
  0 <= fst (randomBits seed) < 2 ^ 53 /\ u64 (snd (randomBits seed)).
Proof.
  intros Hs. unfold randomBits, rbind, rret.
  destruct (randomU64 seed) as [next seed1] eqn:E1.
  destruct (randomU64 seed1) as [next2 seed2] eqn:E2.
  pose proof (randomU64_u64 seed Hs) as [Hn Hs1]. rewrite E1 in Hn, Hs1. simpl in Hn, Hs1.
  subst seed1.
  pose proof (randomU64_u64 next Hn) as [Hn2 Hs2]. rewrite E2 in Hn2, Hs2. simpl in Hn2, Hs2.
  subst seed2. simpl. split; [|assumption].
  pose proof (top26 next Hn) as Ht1. pose proof (top26 next2 Hn2) as Ht2.
  set (a := Z.shiftr next (64 - 26)) in *. set (b := Z.shiftr next2 (64 - 26)) in *.
  unfold wrap64. rewrite Z.shiftl_mul_pow2 by lia.
  change (2 ^ 27) with 134217728 in *. change (2 ^ 26) with 67108864 in *.
  change (2 ^ 53) with 9007199254740992. change (2 ^ 64) with 18446744073709551616.
  rewrite (Z.mod_small (a * 134217728)) by lia.
  rewrite Z.mod_small by lia. lia.
Qed.

End SeedLemmas.

Section GeneratorLemmas.

Context {D : Type} `{DoubleOps D}.
Local Open Scope double_scope.

Variable dpow : D -> D -> D.
Variable nplanets : Z.

Implicit Types (planets : list (Planet D)) (p q : Planet D).

Lemma randomDouble_seed seed :
  snd (randomDouble (D := D) seed) = snd (randomBits seed).
Proof. unfold randomDouble, rbind, rret. now destruct (randomBits seed). Qed.

Lemma randomDouble_value seed :
  fst (randomDouble (D := D) seed)
  = of_int (fst (randomBits seed)) / of_int (Z.shiftl 1 53).
Proof. unfold randomDouble, rbind, rret. now destruct (randomBits seed). Qed.

(** One iteration of the initialisation loop overwrites slot [i] with the
    planet of the next five draws. *)
Lemma init_body_draw i planets seed :
  init_body dpow nplanets i planets seed
  = (alter (fun _ => fst (draw_planet dpow nplanets seed)) i planets,
     snd (draw_planet dpow nplanets seed)).
Proof.
  unfold init_body, draw_planet, rbind, rret, assign.
  destruct (randomDouble seed) as [r1 s1].
  destruct (randomDouble s1) as [r2 s2].
  destruct (randomDouble s2) as [r3 s3].
  destruct (randomDouble s3) as [r4 s4].
  destruct (randomDouble s4) as [r5 s5]. simpl.
  rewrite !list_alter_alter_eq. reflexivity.
Qed.

Lemma foldM_init_body k : forall a planets seed,
  (a + k <= length planets)%nat ->
  foldM (init_body dpow nplanets) (seq a k) planets seed
  = (take a planets ++ fst (draw_planets dpow nplanets k seed)
       ++ drop (a + k) planets,
     snd (draw_planets dpow nplanets k seed)).
Proof.
  induction k as [|k IH]; intros a planets seed Hlen.
  - cbn [seq foldM draw_planets rret fst snd app].
    now rewrite Nat.add_0_r, take_drop.
  - cbn [seq foldM draw_planets]. unfold rbind at 1. rewrite init_body_draw.
    rewrite IH by (rewrite length_alter; lia).
    unfold rbind, rret.
    destruct (draw_planet dpow nplanets seed) as [p seed1]. cbn [fst snd].
    destruct (draw_planets dpow nplanets k seed1) as [ps seed2]. cbn [fst snd].
    f_equal.
    destruct (lookup_lt_is_Some_2 planets a ltac:(lia)) as [q Hq].
    rewrite (take_S_r _ a p)
      by (rewrite list_lookup_alter_eq, Hq; reflexivity).
    rewrite take_alter_ge by lia.
    rewrite drop_alter_lt by lia.
    rewrite <- app_assoc. cbn [app].
    replace (a + S k)%nat with (S (a + k)) by lia. reflexivity.
Qed.

(** The initialisation loop returns the planets drawn one after the other,
    whatever the memory held. *)
Lemma init_planets_draw (junk : nat -> Planet D) seed :
  init_planets dpow nplanets junk seed
  = draw_planets dpow nplanets (Z.to_nat nplanets) seed.
Proof.
  unfold init_planets, for_loopM.
  rewrite foldM_init_body by (rewrite length_malloc; lia).
  rewrite drop_ge by (rewrite length_malloc; lia).
  cbn [take app]. rewrite app_nil_r.
  now destruct (draw_planets dpow nplanets (Z.to_nat nplanets) seed).
Qed.

Lemma length_draw_planets k seed :
  length (fst (draw_planets dpow nplanets k seed)) = k.
Proof.
  revert seed. induction k as [|k IH]; intros seed; cbn [draw_planets]; [reflexivity|].
  unfold rbind, rret. destruct (draw_planet dpow nplanets seed) as [p seed1].
  specialize (IH seed1).
  destruct (draw_planets dpow nplanets k seed1) as [ps seed2]. cbn [fst length] in *.
  now rewrite IH.
Qed.
End GeneratorLemmas.


(** ** The driver *)

Section Driver.

Context {D : Type} `{DoubleOps D}.
Local Open Scope double_scope.

Implicit Types (planets : list (Planet D)) (p q : Planet D).

(** The step as a map over the snapshot: the memory it was given does not
    show in its result. *)
Lemma next_eq_fmap (nplanets : Z) (dt : D) (junk : nat -> Planet D) planets :
  length planets = Z.to_nat nplanets ->
  next nplanets dt junk planets = next_planet dt planets <$> planets.
Proof.
  intros Hlen. apply list_eq. intros k. rewrite list_lookup_fmap.
  destruct (planets !! k) as [pk|] eqn:Hk.
  - now apply next_lookup.
  - apply lookup_ge_None in Hk. apply lookup_ge_None_2.
    rewrite length_next. lia.
Qed.

Lemma steps_junk_irrelevant (nplanets : Z) (dt : D)
    (junk junk' : nat -> nat -> Planet D) (steps : list nat) planets :
  length planets = Z.to_nat nplanets ->
  fold_left (fun s t => next nplanets dt (junk t) s) steps planets
  = fold_left (fun s t => next nplanets dt (junk' t) s) steps planets.
Proof.
  revert planets. induction steps as [|t steps IH]; intros planets Hlen; simpl.
  - reflexivity.
  - rewrite (next_eq_fmap nplanets dt (junk t)), (next_eq_fmap nplanets dt (junk' t))
      by assumption.
    apply IH. now rewrite length_fmap.
Qed.

Lemma length_init_planets dpow nplanets (junk : nat -> Planet D) seed :
  length (fst (init_planets dpow nplanets junk seed)) = Z.to_nat nplanets.
Proof. rewrite init_planets_draw. apply length_draw_planets. Qed.

Lemma run_junk_irrelevant dpow seed nplanets timesteps
    (j0 j0' : nat -> Planet D) (j j' : nat -> nat -> Planet D) :
  run dpow seed nplanets timesteps j0 j = run dpow seed nplanets timesteps j0' j'.
Proof.
  unfold run, simulate, for_loop.
  rewrite (init_planets_draw dpow nplanets j0), (init_planets_draw dpow nplanets j0').
  apply steps_junk_irrelevant, length_draw_planets.
Qed.

(** C9.  The generator followed by the integrator loop is a function of
    the seed, the body count and the step count alone: two runs that agree
    on these reach the same final state, value for value, whatever the
    memory they allocate holds and whatever the clock reads; what the
    program prints differs in the measured time at most. *)
Theorem run_deterministic (dpow : D -> D -> D) (seed nplanets timesteps : Z)
    (env env' : Env D) :
  run dpow seed nplanets timesteps (junk0 env) (junk_step env)
  = run dpow seed nplanets timesteps (junk0 env') (junk_step env')
  /\ (forall prog arg1 arg2 : string,
        Atoi.atoi arg1 = nplanets -> Atoi.atoi arg2 = timesteps ->
        without_seconds (main_from dpow seed env [prog; arg1; arg2])
        = without_seconds (main_from dpow seed env' [prog; arg1; arg2])).
Proof.
  split; [apply run_junk_irrelevant|].
  intros prog arg1 arg2 Hn Ht. unfold main_from. simpl. rewrite Hn, Ht.
  rewrite (run_junk_irrelevant dpow seed nplanets timesteps
             (junk0 env) (junk0 env') (junk_step env) (junk_step env')).
  now destruct (index _ _).
Qed.

(** C4.  Started without arguments, main prints the usage line and
    returns 1.  Started with one argument it passes the test [argc < 2],
    prints no usage line, and calls atoi on the null pointer that ends
    argv, which C leaves undefined. *)
Theorem main_missing_arguments (dpow : D -> D -> D) (seed0 : Z) (env : Env D) :
  (forall prog : string,
     main_from dpow seed0 env [prog] = Exit 1 [Usage prog])
  /\ (forall prog arg1 : string,
        main_from dpow seed0 env [prog; arg1] = Undefined).
Proof. split; reflexivity. Qed.

End Driver.

(** ** What a step reads and what it keeps *)

Section NextFrame.

Context {D : Type} `{DoubleOps D}.
Local Open Scope double_scope.

Implicit Types (planets : list (Planet D)) (p q pi pj : Planet D).

Lemma mass_move (dt : D) q : mass (move dt q) = mass q.
Proof. reflexivity. Qed.

Lemma mass_next_planet (dt : D) planets pi :
  mass (next_planet dt planets pi) = mass pi.
Proof. unfold next_planet. now rewrite mass_move, fold_kick_fields. Qed.

(** A partner enters a planet's update through its mass and position only. *)
Lemma kick_same_place (dt : D) pi pj pj' q :
  mass pj = mass pj' -> x pj = x pj' -> y pj = y pj' ->
  kick dt pi pj q = kick dt pi pj' q.
Proof.
  intros Hm Hx Hy. unfold kick, invDist3. now rewrite Hm, Hx, Hy.
Qed.

Lemma fold_kick_same_places (dt : D) pi planets planets' q :
  Forall2 (fun p p' => mass p = mass p' /\ x p = x p' /\ y p = y p')
          planets planets' ->
  fold_left (fun q pj => kick dt pi pj q) planets q
  = fold_left (fun q pj => kick dt pi pj q) planets' q.
Proof.
  intros Hall. revert q.
  induction Hall as [|p p' l l' (Hm & Hx & Hy) _ IH]; intros q; simpl.
  - reflexivity.
  - rewrite (kick_same_place dt pi p p' q Hm Hx Hy). apply IH.
Qed.


(** X2.  [next] overwrites every field of the array it allocates before it
    reads it: the contents of the fresh memory never reach the result. *)
Theorem next_ignores_memory (nplanets : Z) (dt : D)
    (junk junk' : nat -> Planet D) planets :
  length planets = Z.to_nat nplanets ->
  next nplanets dt junk planets = next nplanets dt junk' planets.
Proof.
  intros Hlen.
  now rewrite (next_eq_fmap nplanets dt junk), (next_eq_fmap nplanets dt junk').
Qed.

(** X3.  [next] never changes a mass: the masses of the new array are those of
    the old one, in the same order. *)
Theorem next_keeps_masses (nplanets : Z) (dt : D) (junk : nat -> Planet D) planets :
  length planets = Z.to_nat nplanets ->
  mass <$> next nplanets dt junk planets = mass <$> planets.
Proof.
  intros Hlen. rewrite next_eq_fmap by assumption.
  rewrite <- list_fmap_compose. apply list_fmap_ext.
  intros k p _. apply mass_next_planet.
Qed.

(** X4.  The new state of planet [i] depends on the other planets through their
    masses and positions only: changing the velocities of the others leaves
    it as it is. *)
Theorem next_ignores_other_velocities (nplanets : Z) (dt : D)
    (junk : nat -> Planet D) planets planets' (i : nat) :
  length planets = Z.to_nat nplanets ->
  Forall2 (fun p p' => mass p = mass p' /\ x p = x p' /\ y p = y p')
          planets planets' ->
  planets !! i = planets' !! i ->
  next nplanets dt junk planets !! i = next nplanets dt junk planets' !! i.
Proof.
  intros Hlen Hall Hi.
  assert (Hlen' : length planets' = Z.to_nat nplanets)
    by (rewrite <- Hlen; symmetry; eapply Forall2_length; eassumption).
  destruct (planets !! i) as [pi|] eqn:Hpi.
  - rewrite (next_lookup nplanets dt junk planets i pi Hlen Hpi).
    rewrite (next_lookup nplanets dt junk planets' i pi Hlen' (eq_sym Hi)).
    unfold next_planet. now rewrite (fold_kick_same_places dt pi planets planets').
  - apply lookup_ge_None in Hpi.
    rewrite !(lookup_ge_None_2 (next _ _ _ _)) by (rewrite length_next; lia).
    reflexivity.
Qed.

End NextFrame.

(** ** The loop over the time steps *)

Section SimulateLemmas.

Context {D : Type} `{DoubleOps D}.
Local Open Scope double_scope.

Implicit Types (planets : list (Planet D)) (p q : Planet D).

Lemma fold_seq_shift {S} (b : nat) : forall (F : nat -> S -> S) (a : nat) (s : S),
  fold_left (fun s t => F t s) (seq a b) s
  = fold_left (fun s t => F (a + t)%nat s) (seq 0 b) s.
Proof.
  induction b as [|b IH]; intros F a s; [reflexivity|].
  cbn [seq fold_left]. rewrite Nat.add_0_r.
  rewrite (IH F (Datatypes.S a)), (IH (fun t => F (a + t)%nat) 1%nat).
  apply fold_left_ext. intros s' t. f_equal. lia.
Qed.

Lemma steps_length (nplanets : Z) (dt : D) (junk : nat -> nat -> Planet D)
    (steps : list nat) planets :
  length planets = Z.to_nat nplanets ->
  length (fold_left (fun s t => next nplanets dt (junk t) s) steps planets)
  = Z.to_nat nplanets.
Proof.
  revert planets. induction steps as [|t steps IH]; intros planets Hlen;
    cbn [fold_left]; [assumption|].
  apply IH, length_next.
Qed.

Lemma steps_masses (nplanets : Z) (dt : D) (junk : nat -> nat -> Planet D)
    (steps : list nat) planets :
  length planets = Z.to_nat nplanets ->
  mass <$> fold_left (fun s t => next nplanets dt (junk t) s) steps planets
  = mass <$> planets.
Proof.
  revert planets. induction steps as [|t steps IH]; intros planets Hlen;
    cbn [fold_left]; [reflexivity|].
  rewrite IH by apply length_next.
  rewrite next_eq_fmap by assumption.
  rewrite <- list_fmap_compose. apply list_fmap_ext.
  intros k p _. apply mass_next_planet.
Qed.

(** X5.  The loop does nothing for a step count of zero or less, and [t1 + t2]
    steps are [t1] steps followed by [t2] steps. *)
Theorem simulate_compose (nplanets : Z) (dt : D) (junk : nat -> nat -> Planet D)
    planets :
  (forall timesteps, (timesteps <= 0)%Z ->
     simulate nplanets dt junk timesteps planets = planets)
  /\ (forall t1 t2, (0 <= t1)%Z -> (0 <= t2)%Z ->
        simulate nplanets dt junk (t1 + t2) planets
        = simulate nplanets dt (fun t => junk (Z.to_nat t1 + t)%nat) t2
            (simulate nplanets dt junk t1 planets)).
Proof.
  split.
  - intros timesteps Ht. unfold simulate, for_loop.
    now replace (Z.to_nat timesteps) with 0%nat by lia.
  - intros t1 t2 H1 H2. unfold simulate, for_loop.
    rewrite Z2Nat.inj_add by assumption.
    rewrite seq_app, fold_left_app. cbn [Nat.add].
    apply (fold_seq_shift _ (fun t s => next nplanets dt (junk t) s)).
Qed.

(** X6.  Through any number of steps the array keeps its length and every
    planet its mass, and the memory the steps allocate never shows. *)
Theorem simulate_invariants (nplanets : Z) (dt : D)
    (junk junk' : nat -> nat -> Planet D) (timesteps : Z) planets :
  length planets = Z.to_nat nplanets ->
  length (simulate nplanets dt junk timesteps planets) = Z.to_nat nplanets
  /\ mass <$> simulate nplanets dt junk timesteps planets = mass <$> planets
  /\ simulate nplanets dt junk timesteps planets
     = simulate nplanets dt junk' timesteps planets.
Proof.
  intros Hlen. unfold simulate, for_loop. split; [|split].
  - now apply steps_length.
  - now apply steps_masses.
  - now apply steps_junk_irrelevant.
Qed.

End SimulateLemmas.

(** ** The initial conditions and the report *)

Section InitLemmas.

Context {D : Type} `{DoubleOps D}.
Local Open Scope double_scope.

Variable dpow : D -> D -> D.
Variable nplanets : Z.

Implicit Types (planets : list (Planet D)) (p q : Planet D).

(** One call of randomU64, as a step on the seed. *)
Local Abbreviation step := (fun s : Z => snd (randomU64 s)).

Lemma randomDouble_steps seed :
  snd (randomDouble (D := D) seed) = Nat.iter 2 step seed.
Proof.
  rewrite randomDouble_seed. unfold randomBits, rbind, rret.
  change (Nat.iter 2 step seed) with (snd (randomU64 (snd (randomU64 seed)))).
  destruct (randomU64 seed) as [w1 s1]. cbn [snd].
  now destruct (randomU64 s1) as [w2 s2].
Qed.

Lemma draw_planet_steps seed :
  snd (draw_planet dpow nplanets seed) = Nat.iter 10 step seed.
Proof.
  unfold draw_planet, rbind, rret.
  pose proof (randomDouble_steps seed) as E1.
  destruct (randomDouble seed) as [r1 s1]. cbn [snd] in E1.
  pose proof (randomDouble_steps s1) as E2.
  destruct (randomDouble s1) as [r2 s2]. cbn [snd] in E2.
  pose proof (randomDouble_steps s2) as E3.
  destruct (randomDouble s2) as [r3 s3]. cbn [snd] in E3.
  pose proof (randomDouble_steps s3) as E4.
  destruct (randomDouble s3) as [r4 s4]. cbn [snd] in E4.
  pose proof (randomDouble_steps s4) as E5.
  destruct (randomDouble s4) as [r5 s5]. cbn [snd] in E5.
  cbn [snd]. subst. rewrite <- !Nat.iter_add. reflexivity.
Qed.

Lemma draw_planets_steps (k : nat) : forall seed,
  snd (draw_planets dpow nplanets k seed) = Nat.iter (10 * k) step seed.
Proof.
  induction k as [|k IH]; intros seed; cbn [draw_planets].
  - reflexivity.
  - unfold rbind, rret.
    pose proof (draw_planet_steps seed) as E.
    destruct (draw_planet dpow nplanets seed) as [p seed1]. cbn [snd] in E.
    specialize (IH seed1).
    destruct (draw_planets dpow nplanets k seed1) as [ps seed2]. cbn [snd] in *.
    rewrite IH, E.
    replace (10 * Datatypes.S k)%nat with (10 * k + 10)%nat by lia.
    now rewrite Nat.iter_add.
Qed.

Lemma draw_planets_lookup (k : nat) : forall seed (i : nat),
  (i < k)%nat ->
  fst (draw_planets dpow nplanets k seed) !! i
  = Some (fst (draw_planet dpow nplanets (Nat.iter (10 * i) step seed))).
Proof.
  induction k as [|k IH]; intros seed i Hi; [lia|].
  cbn [draw_planets]. unfold rbind, rret.
  pose proof (draw_planet_steps seed) as E.
  destruct (draw_planet dpow nplanets seed) as [p seed1] eqn:Ep. cbn [snd] in E.
  specialize (IH seed1).
  destruct (draw_planets dpow nplanets k seed1) as [ps seed2]. cbn [fst] in *.
  destruct i as [|i].
  - rewrite Nat.mul_0_r. change (Nat.iter 0 step seed) with seed. now rewrite Ep.
  - cbn [lookup list_lookup]. rewrite IH by lia. rewrite E.
    replace (10 * Datatypes.S i)%nat with (10 * i + 10)%nat by lia.
    now rewrite Nat.iter_add.
Qed.

(** X7.  The initialisation loop returns [nplanets] planets, none of which
    shows what the memory held; planet [i] is made of the random words
    [10 i + 1] to [10 i + 10], and the loop leaves the seed [10 nplanets]
    calls of randomU64 further. *)
Theorem init_planets_shape (junk junk' : nat -> Planet D) (seed : Z) :
  length (fst (init_planets dpow nplanets junk seed)) = Z.to_nat nplanets
  /\ init_planets dpow nplanets junk seed = init_planets dpow nplanets junk' seed
  /\ (forall i : nat, (i < Z.to_nat nplanets)%nat ->
        fst (init_planets dpow nplanets junk seed) !! i
        = Some (fst (draw_planet dpow nplanets (Nat.iter (10 * i) step seed))))
  /\ snd (init_planets dpow nplanets junk seed)
     = Nat.iter (10 * Z.to_nat nplanets) step seed.
Proof.
  rewrite (init_planets_draw dpow nplanets junk'), !init_planets_draw.
  split; [apply length_draw_planets|]. split; [reflexivity|].
  split; [intros i Hi; now apply draw_planets_lookup|].
  apply draw_planets_steps.
Qed.


End InitLemmas.

Section MainLemmas.

Context {D : Type} `{DoubleOps D}.
Local Open Scope double_scope.




End MainLemmas.

(** ** The xorshift rounds are one-to-one *)

Section Xorshift.

Local Open Scope Z_scope.

Lemma u64_high_bits a n : u64 a -> 64 <= n -> Z.testbit a n = false.
Proof.
  intros [Ha Ha'] Hn. rewrite <- (Z.mod_small a (2 ^ 64)) by lia.
  apply Z.mod_pow2_bits_high. lia.
Qed.

Lemma wrap64_shiftl_bit a k n :
  0 <= n ->
  Z.testbit (wrap64 (Z.shiftl a k)) n
  = if n <? 64 then Z.testbit a (n - k) else false.
Proof.
  intros Hn. unfold wrap64. destruct (Z.ltb_spec n 64).
  - rewrite Z.mod_pow2_bits_low by lia. now apply Z.shiftl_spec.
  - apply Z.mod_pow2_bits_high. lia.
Qed.

(** [s ^= s << k] loses nothing: low bits first, every bit of the input
    can be read back from the output. *)
Lemma xorshift_left_inj k a b :
  0 < k ->
  Z.lxor a (wrap64 (Z.shiftl a k)) = Z.lxor b (wrap64 (Z.shiftl b k)) ->
  a = b.
Proof.
  intros Hk Heq. apply Z.bits_inj'. intros n Hn.
  assert (Hall : forall m, 0 <= m -> forall i, 0 <= i < m ->
                   Z.testbit a i = Z.testbit b i).
  { apply (natlike_ind (fun m => forall i, 0 <= i < m ->
                           Z.testbit a i = Z.testbit b i)); [intros; lia|].
    intros m Hm IH i Hi.
    destruct (Z.eq_dec i m) as [->|]; [|apply IH; lia].
    pose proof (f_equal (fun z => Z.testbit z m) Heq) as Hbit. cbv beta in Hbit.
    rewrite !Z.lxor_spec, !wrap64_shiftl_bit in Hbit by assumption.
    assert (Hlow : Z.testbit a (m - k) = Z.testbit b (m - k)).
    { destruct (Z.lt_ge_cases (m - k) 0).
      - now rewrite !Z.testbit_neg_r.
      - apply IH. lia. }
    rewrite Hlow in Hbit. destruct (m <? 64).
    + now apply xorb_move_l_r_2 in Hbit; rewrite Hbit, xorb_assoc, xorb_nilpotent,
        xorb_false_r.
    + now rewrite !xorb_false_r in Hbit. }
  apply (Hall (n + 1)); lia.
Qed.

(** [s ^= s >> k] loses nothing either, high bits first. *)
Lemma xorshift_right_inj k a b :
  0 < k -> u64 a -> u64 b ->
  Z.lxor a (Z.shiftr a k) = Z.lxor b (Z.shiftr b k) ->
  a = b.
Proof.
  intros Hk Ha Hb Heq. apply Z.bits_inj'. intros n Hn.
  assert (Hall : forall d, 0 <= d -> forall i, 0 <= i -> 64 - d <= i ->
                   Z.testbit a i = Z.testbit b i).
  { apply (natlike_ind (fun d => forall i, 0 <= i -> 64 - d <= i ->
                           Z.testbit a i = Z.testbit b i)).
    - intros i _ Hi. now rewrite !u64_high_bits by (assumption || lia).
    - intros d Hd IH i Hi0 Hi.
      destruct (Z.eq_dec i (64 - Z.succ d)) as [Hid|]; [|apply IH; lia].
      pose proof (f_equal (fun z => Z.testbit z i) Heq) as Hbit. cbv beta in Hbit.
      rewrite !Z.lxor_spec, !Z.shiftr_spec in Hbit by assumption.
      rewrite (IH (i + k)) in Hbit by lia.
      now apply xorb_move_l_r_2 in Hbit; rewrite Hbit, xorb_assoc, xorb_nilpotent,
        xorb_false_r. }
  apply (Hall 64); lia.
Qed.

Lemma randomU64_inj a b :
  u64 a -> u64 b -> fst (randomU64 a) = fst (randomU64 b) -> a = b.
Proof.
  intros Ha Hb. unfold randomU64. cbn [fst]. intros Heq.
  apply xorshift_left_inj in Heq; [|lia].
  apply xorshift_right_inj in Heq;
    [|lia|apply lxor_u64; [assumption|apply wrap64_u64]..].
  now apply xorshift_left_inj in Heq.
Qed.

Lemma randomU64_zero : randomU64 0 = (0, 0).
Proof. reflexivity. Qed.

(** X10.  Distinct 64-bit seeds give distinct words: randomU64 is one-to-one on
    the values of [seed]. *)
Theorem randomU64_injective (a b : Z) :
  u64 a -> u64 b -> fst (randomU64 a) = fst (randomU64 b) -> a = b.
Proof.
  intros Ha Hb. unfold randomU64. cbn [fst]. intros Heq.
  apply xorshift_left_inj in Heq; [|lia].
  apply xorshift_right_inj in Heq;
    [|lia|apply lxor_u64; [assumption|apply wrap64_u64]..].
  now apply xorshift_left_inj in Heq.
Qed.

(** X11.  The generator leaves the zero seed at zero for ever, and it is the only
    seed from which it can reach zero: a non-zero seed stays non-zero and
    in the 64-bit range. *)
Theorem randomU64_never_sticks (seed : Z) :
  u64 seed -> seed <> 0 ->
  randomU64 0 = (0, 0)
  /\ u64 (snd (randomU64 seed))
  /\ snd (randomU64 seed) <> 0.
Proof.
  intros Hs Hnz. split; [reflexivity|].
  destruct (randomU64_u64 seed Hs) as [Hu Hsnd]. rewrite Hsnd.
  split; [assumption|]. intros Hz. apply Hnz.
  apply (randomU64_inj seed 0 Hs); [unfold u64; lia|].
  now rewrite Hz, randomU64_zero.
Qed.

(** X12.  The numerator of randomDouble is the top 26 bits of one word, shifted
    by 27, plus the top 26 bits of the next word; nothing wraps, so it is
    at most 2^53 - 2^26 - 1 and its bit 26 is never set. *)
Theorem randomBits_layout (seed : Z) :
  u64 seed ->
  let word1 := fst (randomU64 seed) in
  let word2 := fst (randomU64 (snd (randomU64 seed))) in
  let bits := fst (randomBits seed) in
  bits = Z.shiftr word1 38 * 2 ^ 27 + Z.shiftr word2 38
  /\ 0 <= bits <= 2 ^ 53 - 2 ^ 26 - 1
  /\ Z.testbit bits 26 = false.
Proof.
  intros Hs word1 word2 bits.
  assert (Hbits : bits = Z.shiftr word1 38 * 2 ^ 27 + Z.shiftr word2 38
                  /\ 0 <= Z.shiftr word1 38 < 2 ^ 26
                  /\ 0 <= Z.shiftr word2 38 < 2 ^ 26).
  { unfold bits, word1, word2, randomBits, rbind, rret.
    pose proof (randomU64_u64 seed Hs) as [Hn Hs1].
    destruct (randomU64 seed) as [next seed1]. cbn [fst snd] in *. subst seed1.
    pose proof (randomU64_u64 next Hn) as [Hn2 _].
    destruct (randomU64 next) as [next2 seed2]. cbn [fst snd] in *.
    pose proof (top26 next Hn) as Ht1. pose proof (top26 next2 Hn2) as Ht2.
    change (64 - 26) with 38 in *.
    set (hi := Z.shiftr next 38) in *. set (lo := Z.shiftr next2 38) in *.
    split; [|split; assumption].
    unfold wrap64. rewrite Z.shiftl_mul_pow2 by lia.
    change (2 ^ 27) with 134217728 in *. change (2 ^ 26) with 67108864 in *.
    change (2 ^ 64) with 18446744073709551616.
    rewrite (Z.mod_small (hi * 134217728)) by lia.
    rewrite Z.mod_small by lia. reflexivity. }
  destruct Hbits as (Ebits & Hhi & Hlo). split; [assumption|].
  set (hi := Z.shiftr word1 38) in *. set (lo := Z.shiftr word2 38) in *.
  clearbody bits hi lo. subst bits.
  change (2 ^ 27) with 134217728. change (2 ^ 26) with 67108864 in *.
  change (2 ^ 53) with 9007199254740992.
  split; [lia|].
  destruct (Z.testbit (hi * 134217728 + lo) 26) eqn:Hbit; [|reflexivity].
  pose proof (Z.testbit_spec' (hi * 134217728 + lo) 26 ltac:(lia)) as Hspec.
  rewrite Hbit in Hspec. cbn [Z.b2z] in Hspec.
  change (2 ^ 26) with 67108864 in Hspec.
  replace (hi * 134217728 + lo) with (lo + (2 * hi) * 67108864) in Hspec by lia.
  rewrite Z.div_add, (Z.div_small lo) in Hspec by lia.
  rewrite Z.add_0_l, Z.mul_comm, Z.mod_mul in Hspec by lia. discriminate.
Qed.

End Xorshift.

(** ** The properties above at sample inputs *)

Section Witnesses.

Local Open Scope Z_scope.

Lemma next_ignores_memory_witness :
  length Sample.two_bodies = Z.to_nat 2
  /\ next 2 Sample.dt Sample.nan_junk Sample.two_bodies
     = next 2 Sample.dt Sample.zero_junk Sample.two_bodies.
Proof.
  split; [reflexivity|]. apply next_ignores_memory. reflexivity.
Defined.

Lemma next_keeps_masses_witness :
  length Sample.two_bodies = Z.to_nat 2
  /\ mass <$> next 2 Sample.dt Sample.nan_junk Sample.two_bodies
     = mass <$> Sample.two_bodies.
Proof.
  split; [reflexivity|]. apply next_keeps_masses. reflexivity.
Defined.

Lemma next_ignores_other_velocities_witness :
  length Sample.two_bodies = Z.to_nat 2
  /\ Forall2 (fun p p' => mass p = mass p' /\ x p = x p' /\ y p = y p')
       Sample.two_bodies Sample.two_bodies_moving
  /\ Sample.two_bodies !! 0%nat = Sample.two_bodies_moving !! 0%nat
  /\ next 2 Sample.dt Sample.nan_junk Sample.two_bodies !! 0%nat
     = next 2 Sample.dt Sample.nan_junk Sample.two_bodies_moving !! 0%nat.
Proof.
  assert (Hsame : Forall2 (fun p p' : Planet float =>
                             mass p = mass p' /\ x p = x p' /\ y p = y p')
                    Sample.two_bodies Sample.two_bodies_moving)
    by (repeat constructor).
  split; [reflexivity|]. split; [exact Hsame|]. split; [reflexivity|].
  apply next_ignores_other_velocities; [reflexivity|exact Hsame|reflexivity].
Defined.

Lemma simulate_invariants_witness :
  length Sample.two_bodies = Z.to_nat 2
  /\ length (simulate 2 Sample.dt (fun _ => Sample.nan_junk) 3 Sample.two_bodies)
     = Z.to_nat 2
  /\ mass <$> simulate 2 Sample.dt (fun _ => Sample.nan_junk) 3 Sample.two_bodies
     = mass <$> Sample.two_bodies
  /\ simulate 2 Sample.dt (fun _ => Sample.nan_junk) 3 Sample.two_bodies
     = simulate 2 Sample.dt (fun _ => Sample.zero_junk) 3 Sample.two_bodies.
Proof.
  split; [reflexivity|]. apply simulate_invariants. reflexivity.
Defined.


Lemma randomU64_injective_witness :
  u64 100 /\ u64 100 /\ fst (randomU64 100) = fst (randomU64 100) /\ 100 = 100.
Proof.
  assert (Hu : u64 100) by (unfold u64; lia).
  split; [exact Hu|]. split; [exact Hu|]. split; [reflexivity|].
  apply (randomU64_injective 100 100 Hu Hu). reflexivity.
Defined.

Lemma randomU64_never_sticks_witness :
  u64 100 /\ 100 <> 0
  /\ randomU64 0 = (0, 0)
  /\ u64 (snd (randomU64 100))
  /\ snd (randomU64 100) <> 0.
Proof.
  assert (Hu : u64 100) by (unfold u64; lia).
  split; [exact Hu|]. split; [lia|].
  apply (randomU64_never_sticks 100 Hu). lia.
Defined.

Lemma randomBits_layout_witness :
  u64 100
  /\ (fst (randomBits 100)
      = (Z.shiftr (fst (randomU64 100)) 38 * 2 ^ 27
         + Z.shiftr (fst (randomU64 (snd (randomU64 100)))) 38)%Z
      /\ (0 <= fst (randomBits 100) <= 2 ^ 53 - 2 ^ 26 - 1)%Z
      /\ Z.testbit (fst (randomBits 100)) 26 = false).
Proof.
  assert (Hu : u64 100) by (unfold u64; lia).
  split; [exact Hu|]. exact (randomBits_layout 100 Hu).
Defined.

End Witnesses.

(** ** IEEE 754 binary64: signs and symmetry *)

Section SpecFloatSigns.
Local Open Scope Z_scope.

Lemma SFabs_binary_round (s : bool) (m : positive) (e : Z) :
  SFabs (binary_round prec emax s m e) = SFabs (binary_round prec emax false m e).
Proof.
  unfold binary_round, binary_round_aux.
  destruct (shl_align m e _) as [mz ez].
  destruct (shr_fexp prec emax (Z.pos mz) ez loc_Exact) as [mrs' e'].
  destruct (shr_fexp prec emax _ e' loc_Exact) as [mrs'' e''].
  destruct (shr_m mrs''); try reflexivity.
  now destruct (e'' <=? emax - prec).
Qed.

Lemma SFabs_binary_normalize_opp (z e : Z) :
  SFabs (binary_normalize prec emax (- z) e false)
  = SFabs (binary_normalize prec emax z e false).
Proof.
  destruct z as [|p|p]; cbn [Z.opp binary_normalize]; [reflexivity| |].
  - apply SFabs_binary_round.
  - symmetry. apply SFabs_binary_round.
Qed.

Lemma SFabs_sub_swap (a b : spec_float) :
  SFabs (SF64sub a b) = SFabs (SF64sub b a).
Proof.
  unfold SF64sub, SFsub.
  destruct a as [sa|sa| |sa ma ea], b as [sb|sb| |sb mb eb];
    try reflexivity; try (destruct sa, sb; reflexivity).
  rewrite (Z.min_comm eb ea).
  rewrite <- SFabs_binary_normalize_opp. f_equal. f_equal. lia.
Qed.

Lemma SFmul_square_abs (a b : spec_float) :
  SFabs a = SFabs b -> SF64mul a a = SF64mul b b.
Proof.
  unfold SF64mul, SFmul.
  destruct a as [sa|sa| |sa ma ea], b as [sb|sb| |sb mb eb];
    cbn [SFabs]; intros Heq; try discriminate; try reflexivity;
    try (destruct sa, sb; reflexivity).
  injection Heq as -> ->. now destruct sa, sb.
Qed.

Lemma SFmul_comm (a b : spec_float) : SF64mul a b = SF64mul b a.
Proof.
  unfold SF64mul, SFmul.
  destruct a as [sa|sa| |sa ma ea], b as [sb|sb| |sb mb eb];
    try reflexivity; try (destruct sa, sb; reflexivity).
  now rewrite xorb_comm, Pos.mul_comm, Z.add_comm.
Qed.

Lemma SFsub_diag (a : spec_float) :
  match a with S754_nan | S754_infinity _ => False | _ => True end ->
  SF64sub a a = S754_zero false.
Proof.
  unfold SF64sub, SFsub. destruct a as [sa|sa| |sa ma ea]; intros Hfin;
    try contradiction.
  - now destruct sa.
  - now rewrite Z.sub_diag.
Qed.
End SpecFloatSigns.

Section Binary64Arith.
Local Open Scope float_scope.
Lemma mul_comm (a b : float) : a * b = b * a.
Proof. apply Prim2SF_inj. rewrite !mul_spec. apply SFmul_comm. Qed.

Lemma square_diff_swap (a b : float) : (a - b) * (a - b) = (b - a) * (b - a).
Proof.
  apply Prim2SF_inj. rewrite !mul_spec, !sub_spec.
  apply SFmul_square_abs, SFabs_sub_swap.
Qed.
End Binary64Arith.

(** ** IEEE 754 binary64: exact conversions *)

Section SpecFloatDigits.
Local Open Scope Z_scope.

Lemma digits2_pos_size (p : positive) : digits2_pos p = Pos.size p.
Proof. induction p as [p IH|p IH|]; cbn [digits2_pos Pos.size]; now rewrite ?IH. Qed.

Lemma digits2_pos_le (p : positive) (k : positive) :
  Z.pos p < 2 ^ Z.pos k -> Z.pos (digits2_pos p) <= Z.pos k.
Proof.
  intros Hp. rewrite digits2_pos_size.
  pose proof (Pos.size_le p) as Hle.
  destruct (Z.le_gt_cases (Z.pos (Pos.size p)) (Z.pos k)) as [|Hgt]; [assumption|].
  exfalso.
  assert (H2 : 2 ^ (Z.pos k + 1) <= 2 ^ Z.pos (Pos.size p))
    by (apply Z.pow_le_mono_r; lia).
  assert (H3 : 2 ^ Z.pos (Pos.size p) <= Z.pos p~0).
  { rewrite <- Pos2Z.inj_pow. apply Pos2Z.pos_le_pos. exact Hle. }
  rewrite Z.pow_add_r in H2 by lia. change (2 ^ 1) with 2 in H2.
  rewrite Pos2Z.inj_xO in H3. lia.
Qed.

Lemma digits2_pos_iter_xO (p k : positive) :
  digits2_pos (Pos.iter xO p k) = (digits2_pos p + k)%positive.
Proof.
  revert p. induction k as [|k IH] using Pos.peano_ind; intros p.
  - cbn [Pos.iter digits2_pos]. lia.
  - rewrite Pos.iter_succ. cbn [digits2_pos]. rewrite IH. lia.
Qed.

Lemma Zpos_iter_xO (p k : positive) :
  Z.pos (Pos.iter xO p k) = Z.pos p * 2 ^ Z.pos k.
Proof.
  revert p. induction k as [|k IH] using Pos.peano_ind; intros p.
  - cbn [Pos.iter]. lia.
  - rewrite Pos.iter_succ, Pos2Z.inj_xO, IH, Pos2Z.inj_succ, Z.pow_succ_r by lia. lia.
Qed.

(** A canonical mantissa and exponent pass through rounding unchanged. *)
Lemma binary_round_aux_canonical (s : bool) (m : positive) (e : Z) :
  Z.pos (digits2_pos m) = 53 -> -1074 <= e <= 971 ->
  binary_round_aux prec emax s (Z.pos m) e loc_Exact = S754_finite s m e.
Proof.
  intros Hd He. unfold binary_round_aux.
  assert (Hshr : shr_fexp prec emax (Z.pos m) e loc_Exact
                 = ({| shr_m := Z.pos m; shr_r := false; shr_s := false |}, e)).
  { unfold shr_fexp, fexp, SpecFloat.emin. cbn [Zdigits2]. rewrite Hd.
    change prec with 53. change emax with 1024.
    replace (Z.max (53 + e - 53) (3 - 1024 - 53) - e) with 0 by lia.
    reflexivity. }
  rewrite Hshr. cbn [shr_m loc_of_shr_record round_nearest_even].
  rewrite Hshr. cbn [shr_m].
  change (emax - prec) with 971.
  destruct (Z.leb_spec e 971); [reflexivity|lia].
Qed.

End SpecFloatDigits.

Section SpecFloatExact.
Local Open Scope Z_scope.

Lemma fexp64 (z : Z) : fexp prec emax z = Z.max (z - 53) (-1074).
Proof. reflexivity. Qed.

(** An integer below 2^53 converts to a double without rounding: the
    mantissa is the integer shifted up to 53 bits. *)
Lemma binary_normalize_below_2p53 (p : positive) :
  Z.pos p < 2 ^ 53 ->
  exists m : positive,
    binary_normalize prec emax (Z.pos p) 0 false
    = S754_finite false m (Z.pos (digits2_pos p) - 53)
    /\ Z.pos (digits2_pos m) = 53
    /\ Z.pos m = Z.pos p * 2 ^ (53 - Z.pos (digits2_pos p)).
Proof.
  intros Hp. pose proof (digits2_pos_le p 53 Hp) as Hd.
  cbn [binary_normalize]. unfold binary_round. rewrite fexp64.
  set (d := Z.pos (digits2_pos p)) in *.
  replace (Z.max (d + 0 - 53) (-1074)) with (d - 53) by lia.
  unfold shl_align. destruct (d - 53 - 0) as [|k|k] eqn:Ek; [| lia |].
  - exists p. assert (d = 53) by lia.
    rewrite binary_round_aux_canonical by (fold d; lia).
    replace (d - 53) with 0 by lia. replace (53 - d) with 0 by lia.
    split; [reflexivity|]. split; [assumption|]. lia.
  - exists (Pos.iter xO p k).
    assert (Hk : Z.pos k = 53 - d) by lia.
    assert (Hdig : Z.pos (digits2_pos (Pos.iter xO p k)) = 53).
    { rewrite digits2_pos_iter_xO, Pos2Z.inj_add. fold d. lia. }
    rewrite binary_round_aux_canonical by (assumption || lia).
    split; [reflexivity|]. split; [assumption|].
    now rewrite Zpos_iter_xO, Hk.
Qed.

Lemma div_eucl_pair (a b : Z) : Z.div_eucl a b = (a / b, a mod b).
Proof. unfold Z.div, Z.modulo. now destruct (Z.div_eucl a b). Qed.

(** Dividing a normalised double by 2^53 lowers its exponent by 53. *)
Lemma SFdiv_2p53 (m : positive) (e : Z) :
  Z.pos (digits2_pos m) = 53 -> -52 <= e <= 0 ->
  SF64div (S754_finite false m e) (S754_finite false 4503599627370496 1)
  = S754_finite false m (e - 53).
Proof.
  intros Hd He. unfold SF64div, SFdiv, SFdiv_core_binary.
  cbn [Zdigits2]. rewrite Hd.
  change (Z.pos (digits2_pos 4503599627370496)) with 53.
  rewrite fexp64.
  replace (Z.min (Z.max (53 + e - (53 + 1) - 53) (-1074)) (e - 1)) with (e - 54) by lia.
  replace (e - 1 - (e - 54)) with 53 by lia.
  rewrite div_eucl_pair, Z.shiftl_mul_pow2 by lia.
  change (2 ^ 53) with (2 * 4503599627370496).
  rewrite Z.mul_assoc, Z.div_mul, Z.mod_mul by lia.
  change (new_location 4503599627370496 0) with loc_Exact.
  cbn [xorb]. unfold binary_round_aux.
  assert (Hshr1 : shr_fexp prec emax (Z.pos m * 2) (e - 54) loc_Exact
                  = ({| shr_m := Z.pos m; shr_r := false; shr_s := false |}, e - 53)).
  { replace (Z.pos m * 2) with (Z.pos m~0) by lia.
    unfold shr_fexp. rewrite fexp64. cbn [Zdigits2 digits2_pos].
    rewrite Pos2Z.inj_succ, Hd.
    replace (Z.max (Z.succ 53 + (e - 54) - 53) (-1074) - (e - 54)) with 1 by lia.
    cbn [shr_record_of_loc shr iter_pos shr_1 orb]. f_equal. lia. }
  rewrite Hshr1. cbn [shr_m loc_of_shr_record round_nearest_even].
  assert (Hshr2 : shr_fexp prec emax (Z.pos m) (e - 53) loc_Exact
                  = ({| shr_m := Z.pos m; shr_r := false; shr_s := false |}, e - 53)).
  { unfold shr_fexp. rewrite fexp64. cbn [Zdigits2]. rewrite Hd.
    replace (Z.max (53 + (e - 53) - 53) (-1074) - (e - 53)) with 0 by lia.
    reflexivity. }
  rewrite Hshr2. cbn [shr_m]. change (emax - prec) with 971.
  destruct (Z.leb_spec (e - 53) 971); [reflexivity|lia].
Qed.

End SpecFloatExact.

Section Binary64Quotient.
Local Open Scope Z_scope.

(** The quotient of randomDouble in binary64, for a numerator below 2^53:
    zero for zero, and else the exact quotient, held with a 53-bit mantissa. *)
Lemma binary64_quotient (bits : Z) :
  0 <= bits < 2 ^ 53 ->
  let r := PrimFloat.div (Binary64.of_Z bits) (Binary64.of_Z (Z.shiftl 1 53)) in
  (bits = 0 /\ r = PrimFloat.zero)
  \/ (exists (m : positive) (e : Z),
        Prim2SF r = S754_finite false m e
        /\ -105 <= e <= -53
        /\ Z.pos m * 2 ^ 53 = bits * 2 ^ (- e)).
Proof.
  intros [Hlo Hhi] r. destruct bits as [|p|p]; [left|right|lia].
  - split; reflexivity.
  - destruct (binary_normalize_below_2p53 p Hhi) as (m & Hnorm & Hdig & Hval).
    pose proof (digits2_pos_le p 53 Hhi) as Hd.
    set (d := Z.pos (digits2_pos p)) in *.
    exists m, (d - 53 - 53).
    assert (Hnum : Prim2SF (Binary64.of_Z (Z.pos p)) = S754_finite false m (d - 53)).
    { unfold Binary64.of_Z. rewrite of_uint63_spec, Uint63.of_Z_spec.
      rewrite Z.mod_small; [exact Hnorm|].
      split; [lia|]. apply Z.lt_trans with (2 ^ 53); [assumption|reflexivity]. }
    split.
    + unfold r. rewrite FloatAxioms.div_spec, Hnum.
      change (Prim2SF (Binary64.of_Z (Z.shiftl 1 53)))
        with (S754_finite false 4503599627370496 1).
      apply SFdiv_2p53; [assumption|]. unfold d. lia.
    + split; [unfold d; lia|].
      rewrite Hval, <- Z.mul_assoc, <- Z.pow_add_r by (unfold d; lia).
      do 2 f_equal. lia.
Qed.

End Binary64Quotient.

(** ** The pair terms and the generator in binary64 *)

Section SpecFloatZeros.

Local Open Scope Z_scope.

Lemma SFabs_binary_round_aux (s : bool) (m e : Z) (l : location) :
  SFabs (binary_round_aux prec emax s m e l)
  = SFabs (binary_round_aux prec emax false m e l).
Proof.
  unfold binary_round_aux.
  destruct (shr_fexp prec emax m e l) as [mrs' e'].
  destruct (shr_fexp prec emax _ e' loc_Exact) as [mrs'' e''].
  destruct (shr_m mrs''); try reflexivity.
  now destruct (e'' <=? emax - prec).
Qed.

(** The magnitude of a product is decided by the magnitudes of its
    factors. *)
Lemma SFabs_mul (a a' b b' : spec_float) :
  SFabs a = SFabs a' -> SFabs b = SFabs b' ->
  SFabs (SF64mul a b) = SFabs (SF64mul a' b').
Proof.
  unfold SF64mul, SFmul.
  destruct a as [sa|sa| |sa ma ea], a' as [sa'|sa'| |sa' ma' ea'];
    cbn [SFabs]; intros Ha; try discriminate;
    destruct b as [sb|sb| |sb mb eb], b' as [sb'|sb'| |sb' mb' eb'];
    cbn [SFabs]; intros Hb; try discriminate; try reflexivity.
  injection Ha as -> ->. injection Hb as -> ->.
  rewrite SFabs_binary_round_aux. symmetry. apply SFabs_binary_round_aux.
Qed.

Lemma SFmul_zero_r (a b : spec_float) :
  Binary64.SF_is_finite a = true -> Binary64.SF_is_zero b = true ->
  Binary64.SF_is_zero (SF64mul a b) = true.
Proof. now destruct a, b. Qed.

Lemma SFmul_zero_l (a b : spec_float) :
  Binary64.SF_is_zero a = true -> Binary64.SF_is_finite b = true ->
  Binary64.SF_is_zero (SF64mul a b) = true.
Proof. now destruct a, b. Qed.

Lemma SFcompare_refl (a : spec_float) :
  a <> S754_nan -> SFcompare a a = Some Eq.
Proof.
  destruct a as [s|s| |s m e]; intros Hn; try congruence.
  - reflexivity.
  - now destruct s.
  - cbn [SFcompare]. rewrite Z.compare_refl, Pos.compare_cont_refl.
    now destruct s.
Qed.

(** Adding a zero changes a number by the sign of a zero at most. *)
Lemma SFadd_zero_eqb (v z : spec_float) :
  v <> S754_nan -> Binary64.SF_is_zero z = true -> SFeqb (SF64add v z) v = true.
Proof.
  intros Hv Hz. destruct z as [sz| | |]; try discriminate.
  unfold SFeqb. destruct v as [s|s| |s m e]; try congruence.
  - now destruct s, sz.
  - now destruct s.
  - change (SF64add (S754_finite s m e) (S754_zero sz)) with (S754_finite s m e).
    now rewrite SFcompare_refl.
Qed.

End SpecFloatZeros.

Section Binary64Pairs.

Local Open Scope float_scope.

Implicit Types (p pi pj : Planet float) (dt v : float).

Lemma abs_mul (a a' b b' : float) :
  abs a = abs a' -> abs b = abs b' -> abs (a * b) = abs (a' * b').
Proof.
  intros Ha Hb. apply Prim2SF_inj. rewrite !FloatAxioms.abs_spec, !FloatAxioms.mul_spec.
  apply SFabs_mul; rewrite <- !FloatAxioms.abs_spec; now f_equal.
Qed.

Lemma abs_sub_swap (a b : float) : abs (a - b) = abs (b - a).
Proof.
  apply Prim2SF_inj. rewrite !FloatAxioms.abs_spec, !FloatAxioms.sub_spec. apply SFabs_sub_swap.
Qed.

Lemma sub_diag (a : float) : Binary64.finite a = true -> a - a = 0.
Proof.
  intros Ha. apply Prim2SF_inj. rewrite FloatAxioms.sub_spec.
  change (Prim2SF 0) with (S754_zero false). apply SFsub_diag.
  unfold Binary64.finite in Ha. now destruct (Prim2SF a).
Qed.

Lemma invDist3_binary64_swap pi pj : invDist3 pi pj = invDist3 pj pi.
Proof.
  unfold invDist3. cbn [dadd dsub dmul ddiv dsqrt binary64].
  now rewrite (square_diff_swap (x pj) (x pi)), (square_diff_swap (y pj) (y pi)),
    (mul_comm (mass pi) (mass pj)).
Qed.

(** X14.  In binary64 the factor [invDist3] of lines 54-58 is the same double
    for the pair (i, j) and for the pair (j, i), and the velocity terms the
    two planets receive from each other have the same magnitude, bit for
    bit, NaNs and infinities included. *)
Theorem pair_terms_symmetric_binary64 dt pi pj :
  invDist3 pi pj = invDist3 pj pi
  /\ abs (dt * (x pj - x pi) * invDist3 pi pj)
     = abs (dt * (x pi - x pj) * invDist3 pj pi)
  /\ abs (dt * (y pj - y pi) * invDist3 pi pj)
     = abs (dt * (y pi - y pj) * invDist3 pj pi).
Proof.
  split; [apply invDist3_binary64_swap|].
  rewrite (invDist3_binary64_swap pj pi).
  split; apply abs_mul; try reflexivity; apply abs_mul; try reflexivity;
    apply abs_sub_swap.
Qed.

(** X15.  In binary64, for a planet at a finite position, the pair of the planet
    with itself has [dx = dy = +0], its softened squared distance is exactly
    the double 0.0001 and the divisor [sqrt(distSqr)] is exactly the double
    0.01: the division of line 57 is never a division by zero there.  When
    moreover the time step and the resulting [invDist3] are finite, the term
    added to either velocity component is a zero, so that the addition
    leaves any velocity that is not a NaN numerically unchanged. *)
Theorem self_pair_binary64 dt p :
  Binary64.finite (x p) = true -> Binary64.finite (y p) = true ->
  let dx := x p - x p in
  let dy := y p - y p in
  let distSqr := dx * dx + dy * dy + lit 1 4 in
  dx = 0 /\ dy = 0
  /\ distSqr = lit 1 4
  /\ sqrt distSqr = lit 1 2
  /\ invDist3 p p
     = (let invDist := mass p * mass p / lit 1 2 in invDist * invDist * invDist)
  /\ (Binary64.finite dt = true -> Binary64.finite (invDist3 p p) = true ->
      forall v, is_nan v = false ->
        (v + dt * dx * invDist3 p p =? v) = true
        /\ (v + dt * dy * invDist3 p p =? v) = true).
Proof.
  intros Hx Hy. cbv zeta.
  rewrite (sub_diag (x p) Hx), (sub_diag (y p) Hy).
  assert (Hd : 0 * 0 + 0 * 0 + lit 1 4 = lit 1 4 :> float) by (vm_compute; reflexivity).
  assert (Hq : sqrt (lit 1 4) = lit 1 2 :> float) by (vm_compute; reflexivity).
  assert (Hinv : invDist3 p p
                 = (let invDist := mass p * mass p / lit 1 2 in
                    invDist * invDist * invDist)).
  { unfold invDist3. cbn [dadd dsub dmul ddiv dsqrt binary64].
    rewrite (sub_diag (x p) Hx), (sub_diag (y p) Hy), Hd, Hq. reflexivity. }
  split; [reflexivity|]. split; [reflexivity|]. split; [exact Hd|].
  split; [rewrite Hd; exact Hq|]. split; [exact Hinv|].
  intros Hdt Hfin v Hv.
  assert (Hterm : Binary64.SF_is_zero (Prim2SF (dt * 0 * invDist3 p p)) = true).
  { rewrite !FloatAxioms.mul_spec. apply SFmul_zero_l; [|exact Hfin].
    apply SFmul_zero_r; [exact Hdt|reflexivity]. }
  assert (Hnan : Prim2SF v <> S754_nan).
  { intros Hsf. unfold is_nan in Hv. rewrite FloatAxioms.eqb_spec, Hsf in Hv. discriminate. }
  rewrite FloatAxioms.eqb_spec, FloatAxioms.add_spec. split; now apply SFadd_zero_eqb.
Qed.

(** X13.  In binary64 randomDouble returns a double in [0, 1) for every 64-bit
    seed, and the double is exact: it is +0 when the numerator is 0, and
    else a positive double [m * 2^e] with [m * 2^e = bits / 2^53]. *)
Theorem randomDouble_binary64_unit (seed : Z) :
  u64 seed ->
  let bits := fst (randomBits seed) in
  let r := fst (randomDouble (D := float) seed) in
  (0 <=? r) = true /\ (r <? 1) = true
  /\ ((bits = 0%Z /\ r = 0)
      \/ exists (m : positive) (e : Z),
           Prim2SF r = S754_finite false m e
           /\ (Z.pos m * 2 ^ 53 = bits * 2 ^ (- e))%Z).
Proof.
  intros Hs. cbv zeta.
  destruct (randomBits_range seed Hs) as [Hbits _].
  rewrite randomDouble_value.
  change (@of_int float binary64) with Binary64.of_Z.
  change (@ddiv float binary64) with PrimFloat.div.
  generalize dependent (fst (randomBits seed)). intros bits Hbits.
  destruct (binary64_quotient bits Hbits) as [[Hz H0]|(m & e & Hsf & He & Hval)].
  - rewrite H0. split; [reflexivity|]. split; [reflexivity|].
    left. split; [exact Hz|reflexivity].
  - split; [|split].
    + rewrite FloatAxioms.leb_spec, Hsf. reflexivity.
    + rewrite FloatAxioms.ltb_spec, Hsf.
      change (Prim2SF 1) with (S754_finite false 4503599627370496 (-52)).
      unfold SFltb. cbn [SFcompare].
      now replace (e ?= -52)%Z with Lt by (symmetry; apply Z.compare_lt_iff; lia).
    + right. exists m, e. split; assumption.
Qed.

End Binary64Pairs.

(** ** Rounding in binary64: no underflow to zero, no overflow *)

Section Binary64Rounding.
Local Open Scope Z_scope.

Lemma shr_1_m (mrs : shr_record) :
  0 <= shr_m mrs -> shr_m (shr_1 mrs) = shr_m mrs / 2.
Proof.
  destruct mrs as [m r s]. cbn [shr_m]. intros Hm.
  destruct m as [|p|p]; [reflexivity| |lia].
  destruct p as [p|p|]; cbn [shr_1 shr_m].
  - rewrite Pos2Z.inj_xI. apply Z.div_unique with 1; lia.
  - rewrite Pos2Z.inj_xO. apply Z.div_unique with 0; lia.
  - reflexivity.
Qed.

Lemma pow2_xO (n : positive) : 2 ^ Z.pos n~0 = 2 ^ Z.pos n * 2 ^ Z.pos n.
Proof. rewrite Pos2Z.inj_xO, <- Z.pow_add_r by lia. f_equal. lia. Qed.

Lemma pow2_xI (n : positive) : 2 ^ Z.pos n~1 = 2 * (2 ^ Z.pos n * 2 ^ Z.pos n).
Proof.
  rewrite Pos2Z.inj_xI, <- Z.pow_add_r by lia.
  replace (2 * Z.pos n + 1) with (Z.succ (Z.pos n + Z.pos n)) by lia.
  now rewrite Z.pow_succ_r by lia.
Qed.

Lemma shr_m_iter_pos (n : positive) : forall mrs : shr_record,
  0 <= shr_m mrs ->
  shr_m (SpecFloat.iter_pos shr_1 n mrs) = shr_m mrs / 2 ^ Z.pos n.
Proof.
  assert (Hpow : forall k : positive, 0 < 2 ^ Z.pos k)
    by (intros; apply Z.pow_pos_nonneg; lia).
  assert (Hnn : forall a b, 0 <= a -> 0 < b -> 0 <= a / b)
    by (intros; apply Z.div_pos; lia).
  induction n as [n IH|n IH|]; intros mrs Hm; cbn [SpecFloat.iter_pos].
  - assert (H1 : 0 <= shr_m (shr_1 mrs))
      by (rewrite shr_1_m by assumption; apply Hnn; lia).
    assert (H2 : 0 <= shr_m (SpecFloat.iter_pos shr_1 n (shr_1 mrs)))
      by (rewrite IH by assumption; apply Hnn; [assumption|apply Hpow]).
    rewrite IH, IH, shr_1_m by assumption.
    rewrite !Z.div_div by (pose proof (Hpow n); lia).
    now rewrite pow2_xI.
  - assert (H2 : 0 <= shr_m (SpecFloat.iter_pos shr_1 n mrs))
      by (rewrite IH by assumption; apply Hnn; [assumption|apply Hpow]).
    rewrite IH, IH by assumption.
    rewrite Z.div_div by (pose proof (Hpow n); lia).
    now rewrite pow2_xO.
  - apply shr_1_m. assumption.
Qed.

Lemma digits2_pos_lower (m : positive) :
  2 ^ (Z.pos (digits2_pos m) - 1) <= Z.pos m.
Proof.
  rewrite digits2_pos_size. pose proof (Pos.size_le m) as Hle.
  apply Pos2Z.pos_le_pos in Hle. rewrite Pos2Z.inj_pow in Hle.
  change (Z.pos m~0) with (2 * Z.pos m) in Hle.
  set (k := Z.pos (Pos.size m)) in *.
  replace k with (Z.succ (k - 1)) in Hle by lia.
  rewrite Z.pow_succ_r in Hle by lia. lia.
Qed.


Lemma shr_record_of_loc_m (m : Z) (l : location) : shr_m (shr_record_of_loc m l) = m.
Proof. now destruct l as [|[| |]]. Qed.

Lemma pow2_pos (k : Z) : 0 <= k -> 0 < 2 ^ k.
Proof. intros. apply Z.pow_pos_nonneg; lia. Qed.

Lemma pow2_le_inv (a b : Z) : 0 <= b -> 2 ^ a <= 2 ^ b -> a <= b.
Proof. intros Hb Hle. apply (Z.pow_le_mono_r_iff 2); lia. Qed.

Lemma pow2_lt_inv (a b : Z) : 0 <= b -> 2 ^ a < 2 ^ b -> a < b.
Proof. intros Hb Hlt. apply (Z.pow_lt_mono_r_iff 2); lia. Qed.

(** One shift to the exponent of the format: the mantissa stays positive,
    the exponent does not go down, the value does not go up, and a raised
    exponent is 52 below the magnitude of the value. *)
Lemma shr_fexp_step (q : positive) (E : Z) (l : location) :
  -1074 <= E ->
  exists (q' : positive) (mrs : shr_record) (e' : Z),
    shr_fexp prec emax (Z.pos q) E l = (mrs, e')
    /\ shr_m mrs = Z.pos q'
    /\ E <= e'
    /\ Binary64.ulps q' e' <= Binary64.ulps q E
    /\ (e' = E \/ 2 ^ (e' + 52 + 1074) <= Binary64.ulps q E).
Proof.
  intros HE. unfold shr_fexp. rewrite fexp64. cbn [Zdigits2].
  set (d := Z.pos (digits2_pos q)).
  pose proof (digits2_pos_lower q) as Hlow. fold d in Hlow.
  unfold shr. destruct (Z.max (d + E - 53) (-1074) - E) as [|n|n] eqn:En.
  - exists q, (shr_record_of_loc (Z.pos q) l), E.
    rewrite shr_record_of_loc_m. repeat split; lia.
  - assert (Hn : Z.pos n = d - 53) by lia.
    assert (Hq : 2 ^ Z.pos n <= Z.pos q).
    { apply Z.le_trans with (2 ^ (d - 1)); [|assumption].
      apply Z.pow_le_mono_r; lia. }
    assert (Hpos : 0 < 2 ^ Z.pos n) by (apply pow2_pos; lia).
    assert (Hdiv : 1 <= Z.pos q / 2 ^ Z.pos n).
    { apply Z.div_le_lower_bound; lia. }
    destruct (Z.pos q / 2 ^ Z.pos n) as [|q'|q'] eqn:Eq; try lia.
    exists q', (SpecFloat.iter_pos shr_1 n (shr_record_of_loc (Z.pos q) l)), (E + Z.pos n).
    split; [reflexivity|].
    split.
    { rewrite shr_m_iter_pos by (rewrite shr_record_of_loc_m; lia).
      now rewrite shr_record_of_loc_m. }
    split; [lia|]. split.
    + unfold Binary64.ulps. replace (E + Z.pos n + 1074) with (Z.pos n + (E + 1074)) by lia.
      rewrite Z.pow_add_r by lia.
      assert (Hmul : Z.pos q' * 2 ^ Z.pos n <= Z.pos q).
      { rewrite <- Eq, Z.mul_comm. apply Z.mul_div_le. assumption. }
      assert (0 < 2 ^ (E + 1074)) by (apply pow2_pos; lia).
      nia.
    + right. unfold Binary64.ulps.
      replace (E + Z.pos n + 52 + 1074) with (d - 1 + (E + 1074)) by lia.
      rewrite Z.pow_add_r by lia.
      assert (0 < 2 ^ (E + 1074)) by (apply pow2_pos; lia).
      nia.
  - exists q, (shr_record_of_loc (Z.pos q) l), E.
    rewrite shr_record_of_loc_m. repeat split; lia.
Qed.

Lemma round_nearest_even_step (q : positive) (l : location) :
  exists q' : positive,
    round_nearest_even (Z.pos q) l = Z.pos q' /\ Z.pos q' <= Z.pos q + 1.
Proof.
  destruct l as [|[| |]]; cbn [round_nearest_even];
    try (exists q; split; [reflexivity|lia]);
    try (exists (q + 1)%positive; split; [reflexivity|lia]).
  destruct (Z.even (Z.pos q));
    [exists q; split; [reflexivity|lia]|exists (q + 1)%positive; split; [reflexivity|lia]].
Qed.

(** Rounding a positive value below [2^V], [V <= 1023], held with an
    exponent in the range of the format, gives a finite nonzero double of
    the sign asked for and of value at most [2^V]: no underflow to zero,
    no overflow, no NaN. *)
Lemma binary_round_aux_bounded (s : bool) (q : positive) (E V : Z) (l : location) :
  -1074 <= E <= 971 -> -1074 <= V <= 1023 ->
  Binary64.ulps q E < 2 ^ (V + 1074) ->
  exists (m : positive) (e : Z),
    binary_round_aux prec emax s (Z.pos q) E l = S754_finite s m e
    /\ -1074 <= e <= 971
    /\ Binary64.ulps m e <= 2 ^ (V + 1074).
Proof.
  intros HE HV Hq. unfold binary_round_aux.
  destruct (shr_fexp_step q E l (proj1 HE)) as (q1 & mrs1 & e1 & -> & Hm1 & He1 & Hu1 & Hc1).
  rewrite Hm1.
  destruct (round_nearest_even_step q1 (loc_of_shr_record mrs1)) as (q2 & -> & Hq2).
  assert (He1V : e1 < V).
  { assert (Hlt : 2 ^ (e1 + 1074) < 2 ^ (V + 1074)).
    { apply Z.le_lt_trans with (Binary64.ulps q1 e1); [|lia].
      unfold Binary64.ulps. assert (0 < 2 ^ (e1 + 1074)) by (apply pow2_pos; lia). nia. }
    apply pow2_lt_inv in Hlt; lia. }
  assert (He1hi : e1 <= 971).
  { destruct Hc1 as [->|Hc1]; [lia|].
    assert (Hlt : 2 ^ (e1 + 52 + 1074) < 2 ^ (V + 1074)) by lia.
    apply pow2_lt_inv in Hlt; lia. }
  assert (Hu2 : Binary64.ulps q2 e1 <= 2 ^ (V + 1074)).
  { unfold Binary64.ulps in *.
    assert (Hp : 2 ^ (V + 1074) = 2 ^ (V - e1) * 2 ^ (e1 + 1074))
      by (rewrite <- Z.pow_add_r by lia; f_equal; lia).
    rewrite Hp in *.
    assert (0 < 2 ^ (e1 + 1074)) by (apply pow2_pos; lia).
    assert (Z.pos q1 < 2 ^ (V - e1)) by nia.
    nia. }
  destruct (shr_fexp_step q2 e1 loc_Exact ltac:(lia))
    as (q3 & mrs3 & e3 & -> & Hm3 & He3 & Hu3 & Hc3).
  rewrite Hm3.
  assert (He3hi : e3 <= 971).
  { destruct Hc3 as [->|Hc3]; [lia|].
    assert (Hle : 2 ^ (e3 + 52 + 1074) <= 2 ^ (V + 1074)) by lia.
    apply pow2_le_inv in Hle; lia. }
  replace (e3 <=? emax - prec) with true
    by (symmetry; apply Z.leb_le; change (emax - prec) with 971; lia).
  exists q3, e3. split; [reflexivity|]. split; lia.
Qed.

(** Aligning a mantissa to a lower exponent keeps the value. *)
Lemma shl_align_ulps (mx : positive) (ex ex' : Z) :
  -1074 <= ex' <= ex ->
  Binary64.ulps (fst (shl_align mx ex ex')) ex' = Binary64.ulps mx ex.
Proof.
  intros He. unfold shl_align, Binary64.ulps.
  destruct (ex' - ex) as [|d|d] eqn:Ed; cbn [fst]; try lia.
  - now replace ex' with ex by lia.
  - rewrite Zpos_iter_xO, <- Z.mul_assoc, <- Z.pow_add_r by lia.
    do 2 f_equal. lia.
Qed.

Lemma shl_align_round (mx : positive) (ex ex' : Z) :
  -1074 <= ex -> -1074 <= ex' ->
  -1074 <= snd (shl_align mx ex ex') <= ex
  /\ Binary64.ulps (fst (shl_align mx ex ex')) (snd (shl_align mx ex ex')) = Binary64.ulps mx ex.
Proof.
  intros He He'. unfold shl_align, Binary64.ulps.
  destruct (ex' - ex) as [|d|d] eqn:Ed; cbn [fst snd]; try (split; [lia|reflexivity]).
  split; [lia|].
  rewrite Zpos_iter_xO, <- Z.mul_assoc, <- Z.pow_add_r by lia.
  do 2 f_equal. lia.
Qed.

(** The product of two positive finite doubles whose values multiply below
    [2^V] is a positive finite double of value at most [2^V]. *)
Lemma SFmul_bounded (ma mb : positive) (ea eb V : Z) :
  -1074 <= ea + eb <= 971 -> -1074 <= V <= 1023 ->
  Z.pos ma * Z.pos mb * 2 ^ (ea + eb + 1074) < 2 ^ (V + 1074) ->
  exists (m : positive) (e : Z),
    SF64mul (S754_finite false ma ea) (S754_finite false mb eb) = S754_finite false m e
    /\ -1074 <= e <= 971
    /\ Binary64.ulps m e <= 2 ^ (V + 1074).
Proof.
  intros He HV Hv. unfold SF64mul. cbn [SFmul xorb].
  apply binary_round_aux_bounded; assumption.
Qed.

(** Rounding a positive integer multiple of a power of two does the
    same. *)
Lemma binary_round_bounded (s : bool) (q : positive) (ez V : Z) :
  -1074 <= ez <= 971 -> -1074 <= V <= 1023 ->
  Binary64.ulps q ez < 2 ^ (V + 1074) ->
  exists (m : positive) (e : Z),
    binary_round prec emax s q ez = S754_finite s m e
    /\ -1074 <= e <= 971
    /\ Binary64.ulps m e <= 2 ^ (V + 1074).
Proof.
  intros Hez HV Hq. unfold binary_round.
  assert (Hfexp : -1074 <= fexp prec emax (Z.pos (digits2_pos q) + ez))
    by (rewrite fexp64; lia).
  destruct (shl_align_round q ez _ ltac:(lia) Hfexp) as [Hs Hu].
  destruct (shl_align q ez _) as [mz ez']. cbn [fst snd] in Hs, Hu.
  apply binary_round_aux_bounded; try lia.
Qed.

(** The sum of two positive finite doubles of values at most [2^Va] and
    [2^Vb] is a positive finite double of value at most [2^V] when
    [2^Va + 2^Vb < 2^V]. *)
Lemma SFadd_bounded (ma mb : positive) (ea eb Va Vb V : Z) :
  -1074 <= ea <= 971 -> -1074 <= eb <= 971 -> -1074 <= V <= 1023 ->
  Binary64.ulps ma ea <= 2 ^ (Va + 1074) -> Binary64.ulps mb eb <= 2 ^ (Vb + 1074) ->
  2 ^ (Va + 1074) + 2 ^ (Vb + 1074) < 2 ^ (V + 1074) ->
  exists (m : positive) (e : Z),
    SF64add (S754_finite false ma ea) (S754_finite false mb eb) = S754_finite false m e
    /\ -1074 <= e <= 971
    /\ Binary64.ulps m e <= 2 ^ (V + 1074).
Proof.
  intros Hea Heb HV Ha Hb Hsum. unfold SF64add. cbn [SFadd cond_Zopp].
  set (ez := Z.min ea eb).
  assert (Hez : -1074 <= ez <= ea /\ ez <= eb) by (unfold ez; lia).
  pose proof (shl_align_ulps ma ea ez ltac:(lia)) as Ha'.
  pose proof (shl_align_ulps mb eb ez ltac:(lia)) as Hb'.
  set (a := fst (shl_align ma ea ez)) in *. set (b := fst (shl_align mb eb ez)) in *.
  change (Z.pos a + Z.pos b) with (Z.pos (a + b)).
  cbn [binary_normalize].
  apply binary_round_bounded; try lia.
  unfold Binary64.ulps in *. rewrite Pos2Z.inj_add. nia.
Qed.

(** The difference of two positive finite doubles of values at most [2^V],
    [V <= 1023], is a zero or a finite double: no overflow, no NaN. *)
Lemma SFsub_finite (ma mb : positive) (ea eb V : Z) :
  -1074 <= ea <= 971 -> -1074 <= eb <= 971 -> -1074 <= V <= 1023 ->
  Binary64.ulps ma ea < 2 ^ (V + 1074) -> Binary64.ulps mb eb < 2 ^ (V + 1074) ->
  Binary64.SF_is_finite
    (SF64sub (S754_finite false ma ea) (S754_finite false mb eb)) = true.
Proof.
  intros Hea Heb HV Ha Hb. unfold SF64sub. cbn [SFsub cond_Zopp].
  set (ez := Z.min ea eb).
  assert (Hez : -1074 <= ez <= ea /\ ez <= eb) by (unfold ez; lia).
  pose proof (shl_align_ulps ma ea ez ltac:(lia)) as Ha'.
  pose proof (shl_align_ulps mb eb ez ltac:(lia)) as Hb'.
  set (a := fst (shl_align ma ea ez)) in *. set (b := fst (shl_align mb eb ez)) in *.
  assert (Hp : 0 < 2 ^ (ez + 1074)) by (apply pow2_pos; lia).
  unfold Binary64.ulps in *.
  destruct (Z.pos a - Z.pos b) as [|c|c] eqn:Ec; cbn [binary_normalize]; [reflexivity| |].
  - destruct (binary_round_bounded false c ez V) as (m & e & -> & _); try lia; [|reflexivity].
    unfold Binary64.ulps. nia.
  - destruct (binary_round_bounded true c ez V) as (m & e & -> & _); try lia; [|reflexivity].
    unfold Binary64.ulps. nia.
Qed.

End Binary64Rounding.

(** ** The generator in binary64 *)

Section Binary64Generator.
Local Open Scope Z_scope.

(** What randomDouble returns in binary64: +0, or a positive finite double
    below 1 with an exponent between -105 and -53. *)
Lemma binary64_randomDouble (seed : Z) :
  u64 seed ->
  (fst (randomDouble (D := float) seed) = PrimFloat.zero
   \/ exists (m : positive) (e : Z),
        Prim2SF (fst (randomDouble (D := float) seed)) = S754_finite false m e
        /\ -105 <= e <= -53 /\ Z.pos m < 2 ^ (- e))
  /\ u64 (snd (randomDouble (D := float) seed)).
Proof.
  intros Hs. destruct (randomBits_range seed Hs) as [Hbits Hseed].
  rewrite randomDouble_seed. split; [|assumption].
  rewrite randomDouble_value.
  change (@of_int float binary64) with Binary64.of_Z.
  change (@ddiv float binary64) with PrimFloat.div.
  generalize dependent (fst (randomBits seed)). intros bits Hbits.
  destruct (binary64_quotient bits Hbits) as [[_ H0]|(m & e & Hsf & He & Hval)].
  - left. exact H0.
  - right. exists m, e. split; [assumption|]. split; [assumption|].
    assert (Hp : 0 < 2 ^ 53) by reflexivity.
    assert (Hq : 0 < 2 ^ (- e)) by (apply pow2_pos; lia).
    nia.
Qed.

(** A draw times a constant [c * 2^ec] with [c < 2^53]: a positive finite
    double of value below [2^(53 + ec)]. *)
Lemma binary64_draw_scaled (m c : positive) (e ec : Z) :
  -105 <= e <= -53 -> Z.pos m < 2 ^ (- e) ->
  Z.pos c < 2 ^ 53 -> -60 <= ec <= -40 ->
  exists (m' : positive) (e' : Z),
    SF64mul (S754_finite false m e) (S754_finite false c ec) = S754_finite false m' e'
    /\ -1074 <= e' <= 971
    /\ Binary64.ulps m' e' <= 2 ^ (53 + ec + 1074).
Proof.
  intros He Hm Hc Hec. apply SFmul_bounded; try lia.
  replace (53 + ec + 1074) with (- e + (53 + (e + ec + 1074))) by lia.
  rewrite (Z.pow_add_r 2 (- e)), (Z.pow_add_r 2 53) by lia.
  assert (0 < 2 ^ (e + ec + 1074)) by (apply pow2_pos; lia).
  assert (0 < 2 ^ (- e)) by (apply pow2_pos; lia).
  assert (0 < 2 ^ 53) by reflexivity.
  rewrite Z.mul_assoc. apply Zmult_lt_compat_r; [assumption|].
  apply Z.mul_lt_mono_nonneg; lia.
Qed.

(** The mass of a draw, [r * 10 + 0.2]. *)
Lemma binary64_mass_of_draw (r : float) :
  (r = PrimFloat.zero
   \/ exists (m : positive) (e : Z),
        Prim2SF r = S754_finite false m e /\ -105 <= e <= -53 /\ Z.pos m < 2 ^ (- e)) ->
  PrimFloat.ltb 0 (r * of_int 10 + lit 2 1)%D = true
  /\ Binary64.finite (r * of_int 10 + lit 2 1)%D = true.
Proof.
  intros [->|(m & e & Hsf & He & Hm)]; [split; reflexivity|].
  cbn [dadd dmul binary64]. unfold Binary64.finite.
  rewrite FloatAxioms.ltb_spec, FloatAxioms.add_spec, FloatAxioms.mul_spec, Hsf.
  change (Prim2SF (of_int 10)) with (S754_finite false 5629499534213120 (-49)).
  change (Prim2SF (lit 2 1)) with (S754_finite false 7205759403792794 (-55)).
  destruct (binary64_draw_scaled m 5629499534213120 e (-49) He Hm)
    as (mp & ep & -> & Hep & Hup); [reflexivity|lia|].
  destruct (SFadd_bounded mp 7205759403792794 ep (-55) 4 (-2) 5)
    as (ms & es & -> & _); try lia; try reflexivity; try assumption.
  - unfold Binary64.ulps. apply Z.lt_le_incl. reflexivity.
  - split; reflexivity.
Qed.

(** A velocity component of a draw, [r * 5 - 2.5]. *)
Lemma binary64_velocity_of_draw (r : float) :
  (r = PrimFloat.zero
   \/ exists (m : positive) (e : Z),
        Prim2SF r = S754_finite false m e /\ -105 <= e <= -53 /\ Z.pos m < 2 ^ (- e)) ->
  Binary64.finite (r * of_int 5 - lit 25 1)%D = true.
Proof.
  intros [->|(m & e & Hsf & He & Hm)]; [reflexivity|].
  cbn [dsub dmul binary64]. unfold Binary64.finite.
  rewrite FloatAxioms.sub_spec, FloatAxioms.mul_spec, Hsf.
  change (Prim2SF (of_int 5)) with (S754_finite false 5629499534213120 (-50)).
  change (Prim2SF (lit 25 1)) with (S754_finite false 5629499534213120 (-51)).
  destruct (binary64_draw_scaled m 5629499534213120 e (-50) He Hm)
    as (mp & ep & -> & Hep & Hup); [reflexivity|lia|].
  apply SFsub_finite with (V := 4); try lia. reflexivity.
Qed.

Lemma binary64_draw_planet (dpow : float -> float -> float) (nplanets seed : Z) :
  u64 seed ->
  sound_draw (fst (draw_planet dpow nplanets seed))
  /\ u64 (snd (draw_planet dpow nplanets seed)).
Proof.
  intros Hs. unfold draw_planet, rbind, rret.
  destruct (binary64_randomDouble seed Hs) as [H1 Hs1].
  destruct (randomDouble seed) as [r1 s1]. cbn [fst snd] in H1, Hs1.
  destruct (binary64_randomDouble s1 Hs1) as [_ Hs2].
  destruct (randomDouble s1) as [r2 s2]. cbn [fst snd] in Hs2.
  destruct (binary64_randomDouble s2 Hs2) as [_ Hs3].
  destruct (randomDouble s2) as [r3 s3]. cbn [fst snd] in Hs3.
  destruct (binary64_randomDouble s3 Hs3) as [H4 Hs4].
  destruct (randomDouble s3) as [r4 s4]. cbn [fst snd] in H4, Hs4.
  destruct (binary64_randomDouble s4 Hs4) as [H5 Hs5].
  destruct (randomDouble s4) as [r5 s5]. cbn [fst snd] in H5, Hs5.
  cbn [fst snd]. split; [|assumption].
  unfold sound_draw, planet_of_draws. cbn [mass vx vy].
  destruct (binary64_mass_of_draw r1 H1) as [Hpos Hfin].
  split; [exact Hpos|]. split; [exact Hfin|].
  split; now apply binary64_velocity_of_draw.
Qed.

Lemma binary64_draw_planets (dpow : float -> float -> float) (nplanets : Z) (k : nat) :
  forall seed, u64 seed ->
  Forall sound_draw (fst (draw_planets dpow nplanets k seed)).
Proof.
  induction k as [|k IH]; intros seed Hs; cbn [draw_planets].
  - constructor.
  - unfold rbind, rret.
    destruct (binary64_draw_planet dpow nplanets seed Hs) as [Hp Hs1].
    destruct (draw_planet dpow nplanets seed) as [p seed1]. cbn [fst snd] in Hp, Hs1.
    specialize (IH seed1 Hs1).
    destruct (draw_planets dpow nplanets k seed1) as [ps seed2]. cbn [fst] in *.
    now constructor.
Qed.

(** X21.  In binary64, whatever the library's [pow] returns, every planet
    that the initialisation loop draws from a 64-bit seed has a mass that
    is a finite double above zero and velocity components that are finite
    doubles: [randomDouble() * 10 + 0.2] and [randomDouble() * 5 - 2.5]
    never round to zero mass, overflow or give a NaN. *)
Theorem binary64_init_sound (dpow : float -> float -> float) (nplanets : Z)
    (junk : nat -> Planet float) (seed : Z) :
  u64 seed ->
  Forall sound_draw (fst (init_planets dpow nplanets junk seed)).
Proof.
  intros Hs. rewrite init_planets_draw. now apply binary64_draw_planets.
Qed.

(** X22.  In binary64 every mass of every state of a run is a finite double
    above zero, whatever [pow] returns and whatever the steps compute: the
    generator draws it so and no step changes it. *)
Theorem binary64_run_masses (dpow : float -> float -> float)
    (seed nplanets timesteps : Z)
    (j0 : nat -> Planet float) (j : nat -> nat -> Planet float) :
  u64 seed ->
  Forall (fun m => PrimFloat.ltb 0 m = true /\ Binary64.finite m = true)
         (mass <$> run dpow seed nplanets timesteps j0 j).
Proof.
  intros Hs. unfold run, simulate, for_loop.
  rewrite steps_masses by apply length_init_planets.
  apply Forall_fmap. rewrite init_planets_draw.
  eapply Forall_impl; [apply binary64_draw_planets; assumption|].
  intros p (Hpos & Hfin & _). split; assumption.
Qed.

End Binary64Generator.

(** ** Magnitudes in exact arithmetic *)

Section ExactGenerator.

Local Open Scope R_scope.


End ExactGenerator.

Section ExactRun.

Local Open Scope R_scope.

Implicit Types (planets : list (Planet R)) (p q pi pj : Planet R).














End ExactRun.

Section ExactClock.

Local Open Scope R_scope.


End ExactClock.

Section MoreWitnesses.

Local Open Scope Z_scope.

Lemma self_pair_binary64_witness :
  Binary64.finite (x Sample.left_body) = true
  /\ Binary64.finite (y Sample.left_body) = true
  /\ (let dx := PrimFloat.sub (x Sample.left_body) (x Sample.left_body) in
      let dy := PrimFloat.sub (y Sample.left_body) (y Sample.left_body) in
      let distSqr :=
        PrimFloat.add (PrimFloat.add (PrimFloat.mul dx dx) (PrimFloat.mul dy dy))
                      (lit 1 4) in
      dx = 0%float /\ dy = 0%float
      /\ distSqr = lit 1 4
      /\ PrimFloat.sqrt distSqr = lit 1 2
      /\ invDist3 Sample.left_body Sample.left_body
         = (let invDist :=
              PrimFloat.div (PrimFloat.mul (mass Sample.left_body)
                                           (mass Sample.left_body)) (lit 1 2) in
            PrimFloat.mul (PrimFloat.mul invDist invDist) invDist)
      /\ (Binary64.finite Sample.dt = true ->
          Binary64.finite (invDist3 Sample.left_body Sample.left_body) = true ->
          forall v, PrimFloat.is_nan v = false ->
            PrimFloat.eqb
              (PrimFloat.add v (PrimFloat.mul (PrimFloat.mul Sample.dt dx)
                                 (invDist3 Sample.left_body Sample.left_body))) v
            = true
            /\ PrimFloat.eqb
                 (PrimFloat.add v (PrimFloat.mul (PrimFloat.mul Sample.dt dy)
                                    (invDist3 Sample.left_body Sample.left_body))) v
               = true)).
Proof.
  split; [reflexivity|]. split; [reflexivity|].
  apply (self_pair_binary64 Sample.dt Sample.left_body); reflexivity.
Defined.

Lemma randomDouble_binary64_unit_witness :
  u64 100
  /\ (PrimFloat.leb 0%float (fst (randomDouble (D := float) 100)) = true
      /\ PrimFloat.ltb (fst (randomDouble (D := float) 100)) 1%float = true
      /\ ((fst (randomBits 100) = 0
           /\ fst (randomDouble (D := float) 100) = 0%float)
          \/ exists (m : positive) (e : Z),
               Prim2SF (fst (randomDouble (D := float) 100)) = S754_finite false m e
               /\ Z.pos m * 2 ^ 53 = fst (randomBits 100) * 2 ^ (- e))).
Proof.
  assert (Hu : u64 100) by (unfold u64; lia).
  split; [exact Hu|]. exact (randomDouble_binary64_unit 100 Hu).
Defined.




Lemma binary64_init_sound_witness :
  u64 100
  /\ Forall sound_draw (fst (init_planets PrimFloat.mul 3 Sample.nan_junk 100)).
Proof.
  assert (Hu : u64 100) by (unfold u64; lia).
  split; [exact Hu|].
  exact (binary64_init_sound PrimFloat.mul 3 Sample.nan_junk 100 Hu).
Defined.

Lemma binary64_run_masses_witness :
  u64 100
  /\ Forall (fun m => PrimFloat.ltb 0 m = true /\ Binary64.finite m = true)
       (mass <$> run PrimFloat.mul 100 3 4 Sample.nan_junk (fun _ => Sample.nan_junk)).
Proof.
  assert (Hu : u64 100) by (unfold u64; lia).
  split; [exact Hu|].
  exact (binary64_run_masses PrimFloat.mul 100 3 4 Sample.nan_junk
           (fun _ => Sample.nan_junk) Hu).
Defined.

End MoreWitnesses.

Section ExactSoftening.

Local Open Scope R_scope.


End ExactSoftening.

Section Binary64Checks.

(** The literals of the program as binary64 rounds them. *)
Lemma binary64_literals :
  (lit 1 4 = 0.0001 /\ lit 1 3 = 0.001 /\ lit 1 6 = 0.000001
   /\ lit 2 1 = 0.2 /\ lit 5 1 = 0.5 /\ lit 4 1 = 0.4 /\ lit 25 1 = 2.5
   /\ lit 1 2 = 0.01)%float.
Proof. vm_compute. repeat split. Qed.

(** A finite mass is not enough for the factor of the self pair to be
    finite: for the mass 2^342 the cube overflows, and the step turns the
    velocity and position of the planet into NaNs. *)
Lemma heavy_body_overflows :
  Binary64.finite (mass Sample.heavy_body) = true
  /\ invDist3 Sample.heavy_body Sample.heavy_body = infinity
  /\ next 1 Sample.dt Sample.nan_junk [Sample.heavy_body]
     = [mkPlanet (mass Sample.heavy_body) nan nan nan nan].
Proof. vm_compute. repeat split. Qed.

End Binary64Checks.
